(** * node-portaudio: the stream adapters of [src/index.ts]

    A shallow embedding of the two classes of [src/index.ts], [AudioInput]
    (a Readable fed by the PortAudio binding) and [AudioOutput] (a Writable
    feeding it), followed by the properties of the adapter layer.

    The classes hold one piece of state of their own, the handle
    [this.audio]; everything they do is a call on that handle, sometimes with
    a closure that the binding runs later.  The embedding therefore threads
    the handle explicitly, records every call made on it in the order it is
    made, and represents each closure by a constructor that names the arrow
    function of the source it stands for. *)

From Stdlib Require Import ZArith List Bool Lia String Arith.
From Stdlib Require Import Strings.Byte.
Import ListNotations.

(** ** JavaScript values, as far as the adapters inspect them *)

Module Js.

(** Function values.  [NoopArrow] is the arrow function [() => undefined]
    that [AudioOutput.write] uses as the default of its [cb] parameter;
    [UserFn n] is a function supplied by the caller. *)
Inductive fn : Type :=
| UserFn (n : nat)
| NoopArrow.

(** Numbers are restricted to the integers, which is all the adapters are
    ever handed (sizes, sample widths, device ids). *)
Inductive value : Type :=
| Undefined
| Null
| Boolean (b : bool)
| Number (z : Z)
| Str (s : string)
| Object (o : nat)
| Function (f : fn).

(** ToBoolean: what [if (v)], [!v] and [v && ...] test. *)
Definition truthy (v : value) : bool :=
  match v with
  | Undefined | Null => false
  | Boolean b => b
  | Number z => negb (z =? 0)%Z
  | Str s => negb (String.eqb s EmptyString)
  | Object _ | Function _ => true
  end.

Definition typeof (v : value) : string :=
  match v with
  | Undefined => "undefined"
  | Null | Object _ => "object"
  | Boolean _ => "boolean"
  | Number _ => "number"
  | Str _ => "string"
  | Function _ => "function"
  end.

(** [typeof v === "function"] *)
Definition is_function (v : value) : bool := String.eqb (typeof v) "function".

(** A default parameter initialiser [p = d] applies exactly when the
    argument is [undefined] (an omitted argument is [undefined]). *)
Definition default_param (arg d : value) : value :=
  match arg with
  | Undefined => d
  | _ => arg
  end.

(** The outcome of an expression that may throw. *)
Inductive completion (A : Type) : Type :=
| Normal (a : A)
| Throw (e : value).
Arguments Normal {A} a.
Arguments Throw {A} e.

(** The functions that [if (cb && typeof cb === "function") { cb(); }]
    runs: [cb] itself when it is a function, none otherwise. *)
Definition guarded_call (cb : value) : list fn :=
  match cb with
  | Function f => [f]
  | _ => []
  end.

End Js.

(** ** The PortAudio binding [node_pa.node]

    The binding is native code loaded with [bindings("node_pa.node")]; the
    adapters see it as the constructors [NodePA.AudioIn] and [NodePA.AudioOut]
    and the five methods [read], [write], [start], [abort] and [quit] of the
    objects they return. *)

Module NodePA.

Definition Buffer : Type := list byte.

(** A method call on the handle, as the binding receives it. *)
Inductive request : Type :=
| ReqRead (size : Z)
| ReqWrite (chunk : Buffer)
| ReqStart
| ReqAbort
| ReqQuit.

Definition is_write (r : request) : bool :=
  match r with ReqWrite _ => true | _ => false end.

(** The chunks of the write requests of a call log, in log order. *)
Fixpoint written (l : list request) : list Buffer :=
  match l with
  | [] => []
  | ReqWrite c :: l' => c :: written l'
  | _ :: l' => written l'
  end.

(** The sizes of the read requests of a call log, in log order. *)
Fixpoint requested (l : list request) : list Z :=
  match l with
  | [] => []
  | ReqRead s :: l' => s :: requested l'
  | _ :: l' => requested l'
  end.

Section Handle.

(** The closures an adapter hands to the binding. *)
Context {K : Type}.

(** An asynchronous operation that was issued and has not completed. *)
Record op : Type := mk_op {
  op_id : nat;
  op_req : request;
  op_cb : K
}.

(** Modelled from the spec: the native binding is not part of
    [src/index.ts].  The spec describes it as an opaque capability
    object with asynchronous [read], [write] and [quit] and a single
    completion notification per operation.  A handle is modelled by the
    log of the calls it received, oldest first, the operations that are
    outstanding with their completion closures, and the identifier the
    next asynchronous operation gets. *)
Record handle : Type := mk_handle {
  calls : list request;
  outstanding : list op;
  next_id : nat
}.

Definition fresh : handle := mk_handle [] [] 0.

(** A call that takes no completion closure: [start()], [abort()]. *)
Definition call (r : request) (h : handle) : handle :=
  mk_handle (calls h ++ [r]) (outstanding h) (next_id h).

(** A call that takes a completion closure: [read(size, k)],
    [write(chunk, k)], [quit(k)]. *)
Definition call_async (r : request) (k : K) (h : handle) : handle :=
  mk_handle (calls h ++ [r])
            (outstanding h ++ [mk_op (next_id h) r k])
            (S (next_id h)).

Fixpoint take (id : nat) (l : list op) : option (op * list op) :=
  match l with
  | [] => None
  | o :: l' =>
      if op_id o =? id then Some (o, l')
      else match take id l' with
           | Some (o', r) => Some (o', o :: r)
           | None => None
           end
  end.

(** The binding completes operation [id]: the operation leaves the
    outstanding ones and its closure is due to run, once.  [None] when
    no such operation is outstanding. *)
Definition complete (id : nat) (h : handle) : option (op * handle) :=
  match take id (outstanding h) with
  | Some (o, rest) => Some (o, mk_handle (calls h) rest (next_id h))
  | None => None
  end.

(** How many outstanding operations satisfy [p]. *)
Definition pending (p : request -> bool) (h : handle) : nat :=
  List.length (filter (fun o => p (op_req o)) (outstanding h)).

(** How many outstanding operations carry the identifier [id]. *)
Definition occ (id : nat) (l : list op) : nat :=
  List.length (filter (fun o => op_id o =? id) l).

(** Identifiers are handed out in increasing order, so every
    outstanding operation carries one below [next_id]. *)
Definition ids_below (h : handle) : Prop :=
  Forall (fun o => op_id o < next_id h) (outstanding h).

End Handle.

Arguments op : clear implicits.
Arguments handle : clear implicits.

(** The function values that the completion of operation [id] ran, out of
    a record of runs. *)
Definition ran_by (id : nat) (l : list (Js.fn * nat)) : list Js.fn :=
  map fst (filter (fun e => snd e =? id) l).

(** The options object of [AudioOptions]; every field is optional. *)
Record AudioOptions : Type := mk_options {
  deviceId : option Z;
  sampleRate : option Z;
  channelCount : option Z;
  sampleFormat : option Z
}.

(** The exported constants [SampleFormat8Bit] .. [SampleFormat32Bit]. *)
Definition SampleFormat8Bit : Z := 8.
Definition SampleFormat16Bit : Z := 16.
Definition SampleFormat24Bit : Z := 24.
Definition SampleFormat32Bit : Z := 32.

(** Modelled from the spec: the validation the binding performs is not in
    [src/index.ts].  The spec's data model says that sampleFormat must be
    one of the four recognized widths (an omitted one means the device
    default). *)
Definition supported_format (f : option Z) : bool :=
  match f with
  | None => true
  | Some w =>
      (w =? SampleFormat8Bit)%Z || (w =? SampleFormat16Bit)%Z
      || (w =? SampleFormat24Bit)%Z || (w =? SampleFormat32Bit)%Z
  end.

(** Modelled from the spec: deviceId must resolve to an enumerated device
    or to the default; omitting it or passing -1 selects the default.
    [devices] are the ids that [getDevices] enumerates. *)
Definition resolvable (devices : list Z) (d : option Z) : bool :=
  match d with
  | None => true
  | Some i => (i =? -1)%Z || existsb (Z.eqb i) devices
  end.

Definition valid_options (devices : list Z) (o : AudioOptions) : bool :=
  supported_format (sampleFormat o) && resolvable devices (deviceId o).

(** The error object the binding throws for a configuration it rejects. *)
Definition config_error : Js.value := Js.Object 0.

(** Modelled from the spec: [new NodePA.AudioIn(options)] and
    [new NodePA.AudioOut(options)], absent from [src/index.ts].  The
    spec's error taxonomy says an invalid configuration is a hard failure
    at open time; a valid one yields a usable handle. *)
Definition open {K : Type} (devices : list Z) (o : AudioOptions)
  : Js.completion (handle K) :=
  if valid_options devices o then Js.Normal fresh else Js.Throw config_error.

End NodePA.

(** ** [class AudioInput extends Readable] *)

Module AudioInput.

Import NodePA.

(** The closures [AudioInput] hands to the binding. *)
Inductive callback : Type :=
| ReadHandler
  (* (err, buf) => { if (!err) { this.push(buf); } }          in _read *)
| QuitHandler (cb : Js.value).
  (* () => { if (cb && typeof cb === "function") { cb(); } }  in quit *)

(** An [AudioInput] object: the options given to [Readable], the private
    field [audio], and what the object makes observable to its
    surroundings. *)
Record t : Type := mk {
  highWaterMark : Z;
  objectMode : bool;
  audio : handle callback;
  (* the chunks the stream holds for its consumer, oldest first: the
     delivery queue *)
  queue : list Buffer;
  (* the errors surfaced to the consumer of the stream *)
  errors : list Js.value;
  (* the function values that were run, oldest first, each with the
     operation whose completion ran it *)
  invoked : list (Js.fn * nat);
  (* the operations whose handler called something that is not callable:
     the TypeError leaves the handler and is raised inside the binding *)
  faults : list nat
}.

Definition set_audio (h : handle callback) (a : t) : t :=
  mk (highWaterMark a) (objectMode a) h (queue a) (errors a) (invoked a)
     (faults a).

(** What [Readable.push] enqueues of a Buffer.  A byte stream
    ([objectMode] false) enqueues a chunk only when its length is above
    zero; in object mode every chunk is enqueued. *)
Definition accepted (object_mode : bool) (buf : Buffer) : list Buffer :=
  if object_mode then [buf]
  else match buf with
       | [] => []
       | _ :: _ => [buf]
       end.

(** [this.push(buf)] of Readable, for [buf] a Buffer as the handler
    declares it: what is accepted joins the end of the queue.  The end of
    stream marker [null] is not a Buffer, and nothing in the class ends the
    stream. *)
Definition push (buf : Buffer) (a : t) : t :=
  mk (highWaterMark a) (objectMode a) (audio a)
     (queue a ++ accepted (objectMode a) buf)
     (errors a) (invoked a) (faults a).

(** The call expression [cb()] for operation [id]: a function value runs
    and is recorded; for anything else the call throws a TypeError. *)
Definition invoke (cb : Js.value) (id : nat) (a : t) : t :=
  match cb with
  | Js.Function f =>
      mk (highWaterMark a) (objectMode a) (audio a) (queue a) (errors a)
         (invoked a ++ [(f, id)]) (faults a)
  | _ =>
      mk (highWaterMark a) (objectMode a) (audio a) (queue a) (errors a)
         (invoked a) (faults a ++ [id])
  end.

(** [constructor(options)]: [super({...})], then
    [this.audio = new NodePA.AudioIn(options)].  Nothing catches what the
    binding throws. *)
Definition constructor (devices : list Z) (options : AudioOptions)
  : Js.completion t :=
  match open devices options with
  | Js.Normal h => Js.Normal (mk 16384 false h [] [] [] [])
  | Js.Throw e => Js.Throw e
  end.

(** [_read(size: number = 1024)]; [None] is an omitted size. *)
Definition _read (size : option Z) (a : t) : t :=
  let size := match size with Some s => s | None => 1024%Z end in
  set_audio (call_async (ReqRead size) ReadHandler (audio a)) a.

Definition start (a : t) : t := set_audio (call ReqStart (audio a)) a.

Definition abort (a : t) : t := set_audio (call ReqAbort (audio a)) a.

(** [quit(cb?)]; an omitted [cb] is [Js.Undefined]. *)
Definition quit (cb : Js.value) (a : t) : t :=
  set_audio (call_async ReqQuit (QuitHandler cb) (audio a)) a.

(** The bodies of the two arrow functions, run by the binding for
    operation [id] with the arguments [(err, buf)]. *)
Definition run_callback (id : nat) (k : callback) (err : Js.value)
           (buf : Buffer) (a : t) : t :=
  match k with
  | ReadHandler => if negb (Js.truthy err) then push buf a else a
  | QuitHandler cb =>
      if Js.truthy cb && Js.is_function cb then invoke cb id a else a
  end.

(** The binding completes operation [id] with [(err, buf)]. *)
Definition on_complete (id : nat) (err : Js.value) (buf : Buffer) (a : t)
  : t :=
  match complete id (audio a) with
  | Some (o, h) => run_callback id (op_cb o) err buf (set_audio h a)
  | None => a
  end.

(** What can happen to an [AudioInput]: a method is called, or the
    binding completes an operation. *)
Inductive event : Type :=
| EvRead (size : option Z)
| EvStart
| EvAbort
| EvQuit (cb : Js.value)
| EvComplete (id : nat) (err : Js.value) (buf : Buffer).

Definition step (a : t) (e : event) : t :=
  match e with
  | EvRead size => _read size a
  | EvStart => start a
  | EvAbort => abort a
  | EvQuit cb => quit cb a
  | EvComplete id err buf => on_complete id err buf a
  end.

Definition run (evs : list event) (a : t) : t := fold_left step evs a.

(** The object a successful construction returns. *)
Definition initial : t := mk 16384 false fresh [] [] [] [].

Definition completes (id : nat) (e : event) : bool :=
  match e with EvComplete i _ _ => i =? id | _ => false end.

(** The sizes of the [_read] calls of a run, in call order, with the
    default filled in. *)
Fixpoint pulled (evs : list event) : list Z :=
  match evs with
  | [] => []
  | EvRead (Some s) :: evs' => s :: pulled evs'
  | EvRead None :: evs' => 1024%Z :: pulled evs'
  | _ :: evs' => pulled evs'
  end.

(** Pulls served one at a time: each [_read] is followed by the
    successful completion of the read it issued, before the next [_read].
    [id] is the identifier the first read gets; a successful completion
    passes [null] for [err]. *)
Fixpoint serial (id : nat) (ps : list (option Z * Buffer)) : list event :=
  match ps with
  | [] => []
  | (size, buf) :: ps' =>
      EvRead size :: EvComplete id Js.Null buf :: serial (S id) ps'
  end.

(** The object keeps identifiers in order: outstanding operations and
    recorded runs all carry identifiers that were already handed out. *)
Definition wf (a : t) : Prop :=
  ids_below (audio a)
  /\ Forall (fun e => snd e < next_id (audio a)) (invoked a).

(** The function values a closure runs when the binding calls it. *)
Definition fns_of (k : callback) : list Js.fn :=
  match k with
  | ReadHandler => []
  | QuitHandler cb => Js.guarded_call cb
  end.

(** The life of the asynchronous operation [k] issued with the closure [c]:
    until it completes ([d = false]) it is outstanding once, with [c], and
    has run nothing; once it has completed ([d = true]) it is outstanding
    no more and has run what [c] runs. *)
Definition tracked (k : nat) (c : callback) (d : bool) (s : t) : Prop :=
  wf s
  /\ k < next_id (audio s)
  /\ if d
     then occ k (outstanding (audio s)) = 0
          /\ ran_by k (invoked s) = fns_of c
     else occ k (outstanding (audio s)) = 1
          /\ Forall (fun o => op_id o = k -> op_cb o = c)
                    (outstanding (audio s))
          /\ ran_by k (invoked s) = [].

(** The object [a] with the call log of its handle replaced by [cs].  The
    class never reads that log, which belongs to the binding. *)
Definition with_calls (cs : list request) (a : t) : t :=
  set_audio (mk_handle cs (outstanding (audio a)) (next_id (audio a))) a.

(** Abort immediacy on the capture side, as a property of the class: once
    [abort()] was called, whatever happens next, nothing more joins the
    delivery queue. *)
Definition abort_stops_delivery : Prop :=
  forall evs0 evs : list event,
    let a := run evs0 initial in
    queue (run evs (abort a)) = queue a.

(** The call each method call of a run makes on the binding, in call
    order; a completion makes none. *)
Fixpoint requests_of (evs : list event) : list request :=
  match evs with
  | [] => []
  | EvRead (Some s) :: evs' => ReqRead s :: requests_of evs'
  | EvRead None :: evs' => ReqRead 1024%Z :: requests_of evs'
  | EvStart :: evs' => ReqStart :: requests_of evs'
  | EvAbort :: evs' => ReqAbort :: requests_of evs'
  | EvQuit _ :: evs' => ReqQuit :: requests_of evs'
  | EvComplete _ _ _ :: evs' => requests_of evs'
  end.

(** A run without its [start()] and [abort()] calls. *)
Definition is_lifecycle (e : event) : bool :=
  match e with EvStart | EvAbort => true | _ => false end.

Definition data_events (evs : list event) : list event :=
  filter (fun e => negb (is_lifecycle e)) evs.

(** How many reads are outstanding, told by their closure. *)
Definition is_read_handler (k : callback) : bool :=
  match k with ReadHandler => true | QuitHandler _ => false end.

Definition reads_pending (a : t) : nat :=
  List.length (filter (fun o => is_read_handler (op_cb o))
                      (outstanding (audio a))).

(** Successful completions, [(id, buf)] each, in the order given. *)
Definition completions (cs : list (nat * Buffer)) : list event :=
  map (fun c => EvComplete (fst c) Js.Null (snd c)) cs.

(** Completions put in the order in which their reads were issued, that
    is, by identifier. *)
Fixpoint insert_by_issue (c : nat * Buffer) (l : list (nat * Buffer))
  : list (nat * Buffer) :=
  match l with
  | [] => [c]
  | d :: l' =>
      if fst c <=? fst d then c :: l else d :: insert_by_issue c l'
  end.

Definition by_issue (cs : list (nat * Buffer)) : list (nat * Buffer) :=
  fold_right insert_by_issue [] cs.

(** Delivery in the order of issue, as a property of the class: when
    reads are issued and the binding then completes some of them
    successfully, each once, the queue holds their buffers in the order in
    which the reads were issued. *)
Definition delivers_in_issue_order : Prop :=
  forall (sizes : list (option Z)) (cs : list (nat * Buffer)),
    NoDup (map fst cs) ->
    Forall (fun c => fst c < List.length sizes) cs ->
    queue (run (map EvRead sizes ++ completions cs) initial)
    = map snd (by_issue cs).

(** The function values handed to the object in a run: the callbacks of
    its [quit] calls. *)
Fixpoint given (evs : list event) : list Js.fn :=
  match evs with
  | [] => []
  | EvQuit cb :: evs' => Js.guarded_call cb ++ given evs'
  | _ :: evs' => given evs'
  end.

End AudioInput.

(** ** [class AudioOutput extends Writable] *)

Module AudioOutput.

Import NodePA.

(** The closures [AudioOutput] hands to the binding. *)
Inductive callback : Type :=
| Passed (cb : Js.value)
  (* the value of the parameter [cb] itself                    in write *)
| QuitHandler (cb : Js.value).
  (* () => { if (cb && typeof cb === "function") { cb(); } }  in quit *)

(** The listeners the class registers on itself. *)
Inductive listener : Type :=
| BoundQuit.   (* this.quit.bind(this) *)

Record t : Type := mk {
  decodeStrings : bool;
  highWaterMark : Z;
  objectMode : bool;
  audio : handle callback;
  (* the listeners registered for "finish", oldest first *)
  on_finish : list listener;
  (* the function values that were run, oldest first, each with the
     operation whose completion ran it *)
  invoked : list (Js.fn * nat);
  (* the operations whose completion value was not callable: the
     TypeError is raised inside the binding *)
  faults : list nat
}.

Definition set_audio (h : handle callback) (a : t) : t :=
  mk (decodeStrings a) (highWaterMark a) (objectMode a) h (on_finish a)
     (invoked a) (faults a).

(** [this.on("finish", l)] *)
Definition on_ (l : listener) (a : t) : t :=
  mk (decodeStrings a) (highWaterMark a) (objectMode a) (audio a)
     (on_finish a ++ [l]) (invoked a) (faults a).

(** Calling the value [cb] for operation [id]: a function value runs and
    is recorded; anything else is not callable. *)
Definition invoke (cb : Js.value) (id : nat) (a : t) : t :=
  match cb with
  | Js.Function f =>
      mk (decodeStrings a) (highWaterMark a) (objectMode a) (audio a)
         (on_finish a) (invoked a ++ [(f, id)]) (faults a)
  | _ =>
      mk (decodeStrings a) (highWaterMark a) (objectMode a) (audio a)
         (on_finish a) (invoked a) (faults a ++ [id])
  end.

(** [constructor(options)]: [super({...})],
    [this.audio = new NodePA.AudioOut(options)], then
    [this.on("finish", this.quit.bind(this))]. *)
Definition constructor (devices : list Z) (options : AudioOptions)
  : Js.completion t :=
  match open devices options with
  | Js.Normal h => Js.Normal (on_ BoundQuit (mk false 16384 false h [] [] []))
  | Js.Throw e => Js.Throw e
  end.

(** [write(chunk, encoding?, cb = (() => undefined))]: the value returned
    and the object afterwards. *)
Definition write (chunk : Buffer) (encoding : Js.value) (cb : Js.value)
           (a : t) : bool * t :=
  let cb := Js.default_param cb (Js.Function Js.NoopArrow) in
  (true, set_audio (call_async (ReqWrite chunk) (Passed cb) (audio a)) a).

Definition start (a : t) : t := set_audio (call ReqStart (audio a)) a.

Definition abort (a : t) : t := set_audio (call ReqAbort (audio a)) a.

(** [quit(cb?)]; an omitted [cb] is [Js.Undefined]. *)
Definition quit (cb : Js.value) (a : t) : t :=
  set_audio (call_async ReqQuit (QuitHandler cb) (audio a)) a.

(** A listener called by [emit] with no arguments. *)
Definition run_listener (a : t) (l : listener) : t :=
  match l with
  | BoundQuit => quit Js.Undefined a
  end.

(** The Writable emits "finish": the listeners registered at that moment
    run in registration order. *)
Definition emit_finish (a : t) : t := fold_left run_listener (on_finish a) a.

(** The closure of operation [id], run by the binding. *)
Definition run_callback (id : nat) (k : callback) (a : t) : t :=
  match k with
  | Passed cb => invoke cb id a
  | QuitHandler cb =>
      if Js.truthy cb && Js.is_function cb then invoke cb id a else a
  end.

(** The binding completes operation [id]. *)
Definition on_complete (id : nat) (a : t) : t :=
  match complete id (audio a) with
  | Some (o, h) => run_callback id (op_cb o) (set_audio h a)
  | None => a
  end.

(** What can happen to an [AudioOutput]. *)
Inductive event : Type :=
| EvWrite (chunk : Buffer) (encoding : Js.value) (cb : Js.value)
| EvStart
| EvAbort
| EvQuit (cb : Js.value)
| EvFinish
| EvComplete (id : nat).

Definition step (a : t) (e : event) : t :=
  match e with
  | EvWrite chunk encoding cb => snd (write chunk encoding cb a)
  | EvStart => start a
  | EvAbort => abort a
  | EvQuit cb => quit cb a
  | EvFinish => emit_finish a
  | EvComplete id => on_complete id a
  end.

Definition run (evs : list event) (a : t) : t := fold_left step evs a.

(** The object a successful construction returns. *)
Definition initial : t :=
  on_ BoundQuit (mk false 16384 false fresh [] [] []).

(** The chunks of the [write] calls of a run, in call order. *)
Fixpoint pushed (evs : list event) : list Buffer :=
  match evs with
  | [] => []
  | EvWrite c _ _ :: evs' => c :: pushed evs'
  | _ :: evs' => pushed evs'
  end.

Definition completes (id : nat) (e : event) : bool :=
  match e with EvComplete i => i =? id | _ => false end.

Definition is_push (e : event) : bool :=
  match e with EvWrite _ _ _ => true | _ => false end.

Definition wf (a : t) : Prop :=
  ids_below (audio a)
  /\ Forall (fun e => snd e < next_id (audio a)) (invoked a).

(** The object [a] with the call log of its handle replaced by [cs].  The
    class never reads that log, which belongs to the binding. *)
Definition with_calls (cs : list request) (a : t) : t :=
  set_audio (mk_handle cs (outstanding (audio a)) (next_id (audio a))) a.

(** The invariant of at most one outstanding write, as a property of the
    class: whatever was called and completed so far, the binding holds at
    most one write that has not completed. *)
Definition one_write_outstanding : Prop :=
  forall evs : list event,
    pending is_write (audio (run evs initial)) <= 1.

(** Abort immediacy on the playback side, as a property of the class:
    once [abort()] was called, whatever happens next, no further chunk is
    submitted to the binding. *)
Definition abort_stops_submission : Prop :=
  forall evs0 evs : list event,
    let a := run evs0 initial in
    written (calls (audio (run evs (abort a)))) = written (calls (audio a)).

(** What the binding may call: a function value, or one of the arrow
    functions of the class. *)
Definition callable (k : callback) : bool :=
  match k with
  | Passed cb => Js.is_function cb
  | QuitHandler _ => true
  end.

(** The function values a closure runs when the binding calls it. *)
Definition fns_of (k : callback) : list Js.fn :=
  match k with
  | Passed cb => Js.guarded_call cb
  | QuitHandler cb => Js.guarded_call cb
  end.

(** The life of the asynchronous operation [k] issued with the closure [c]:
    until it completes ([d = false]) it is outstanding once, with [c], and
    has run nothing; once it has completed ([d = true]) it is outstanding
    no more and has run what [c] runs. *)
Definition tracked (k : nat) (c : callback) (d : bool) (s : t) : Prop :=
  wf s
  /\ k < next_id (audio s)
  /\ if d
     then occ k (outstanding (audio s)) = 0
          /\ ran_by k (invoked s) = fns_of c
     else occ k (outstanding (audio s)) = 1
          /\ Forall (fun o => op_id o = k -> op_cb o = c)
                    (outstanding (audio s))
          /\ ran_by k (invoked s) = [].

(** The call each event of a run makes on the binding of a constructed
    object, in order: one per method call, one [quit] per "finish", none
    per completion. *)
Fixpoint requests_of (evs : list event) : list request :=
  match evs with
  | [] => []
  | EvWrite c _ _ :: evs' => ReqWrite c :: requests_of evs'
  | EvStart :: evs' => ReqStart :: requests_of evs'
  | EvAbort :: evs' => ReqAbort :: requests_of evs'
  | EvQuit _ :: evs' => ReqQuit :: requests_of evs'
  | EvFinish :: evs' => ReqQuit :: requests_of evs'
  | EvComplete _ :: evs' => requests_of evs'
  end.

(** A run without its [start()] and [abort()] calls. *)
Definition is_lifecycle (e : event) : bool :=
  match e with EvStart | EvAbort => true | _ => false end.

Definition data_events (evs : list event) : list event :=
  filter (fun e => negb (is_lifecycle e)) evs.

(** The function values handed to the object in a run: the callbacks of
    its [write] and [quit] calls, and the no-op arrow that [write] makes
    when its callback is omitted. *)
Fixpoint given (evs : list event) : list Js.fn :=
  match evs with
  | [] => []
  | EvWrite _ _ cb :: evs' =>
      Js.guarded_call (Js.default_param cb (Js.Function Js.NoopArrow))
      ++ given evs'
  | EvQuit cb :: evs' => Js.guarded_call cb ++ given evs'
  | _ :: evs' => given evs'
  end.

(** A call that respects the declared type of [write]: its [cb] is
    omitted or a function. *)
Definition typed (e : event) : bool :=
  match e with
  | EvWrite _ _ Js.Undefined => true
  | EvWrite _ _ cb => Js.is_function cb
  | _ => true
  end.

End AudioOutput.

(** Abort immediacy for both classes: after [abort()] no further data
    reaches the consumer of an [AudioInput] or the binding of an
    [AudioOutput]. *)
Definition abort_immediacy : Prop :=
  AudioInput.abort_stops_delivery /\ AudioOutput.abort_stops_submission.

(** * Properties *)

(** ** Call logs and the outstanding operations of a handle *)

Module HandleFacts.

Import NodePA.

Lemma written_app (l1 l2 : list request) :
  written (l1 ++ l2) = written l1 ++ written l2.
Proof.
  induction l1 as [|r l1 IH]; simpl; [reflexivity|].
  destruct r; simpl; rewrite IH; reflexivity.
Qed.

Lemma requested_app (l1 l2 : list request) :
  requested (l1 ++ l2) = requested l1 ++ requested l2.
Proof.
  induction l1 as [|r l1 IH]; simpl; [reflexivity|].
  destruct r; simpl; rewrite IH; reflexivity.
Qed.

Lemma ran_by_app (id : nat) (l1 l2 : list (Js.fn * nat)) :
  ran_by id (l1 ++ l2) = ran_by id l1 ++ ran_by id l2.
Proof.
  unfold ran_by. rewrite filter_app, map_app. reflexivity.
Qed.

(** Nothing was run yet by an operation whose identifier is still to be
    handed out. *)
Lemma ran_by_fresh (n id : nat) (l : list (Js.fn * nat)) :
  Forall (fun e => snd e < n) l -> n <= id -> ran_by id l = [].
Proof.
  intros H Hle. unfold ran_by.
  induction H as [|e l He _ IH]; simpl; [reflexivity|].
  destruct (Nat.eqb_spec (snd e) id); [lia | exact IH].
Qed.

Lemma ran_by_map (id k : nat) (fs : list Js.fn) :
  ran_by k (map (fun f => (f, id)) fs) = if id =? k then fs else [].
Proof.
  unfold ran_by. induction fs as [|f fs IH]; simpl.
  - destruct (id =? k); reflexivity.
  - destruct (id =? k); simpl; rewrite IH; reflexivity.
Qed.

Section Take.

Context {K : Type}.
Implicit Types (l r : list (op K)) (o : op K) (h : handle K).

Lemma occ_app id l1 l2 : occ id (l1 ++ l2) = occ id l1 + occ id l2.
Proof. unfold occ. rewrite filter_app, length_app. reflexivity. Qed.

Lemma occ_fresh n id l :
  Forall (fun o => op_id o < n) l -> n <= id -> occ id l = 0.
Proof.
  intros H Hle. unfold occ.
  induction H as [|o l Ho _ IH]; simpl; [reflexivity|].
  destruct (Nat.eqb_spec (op_id o) id); [lia | exact IH].
Qed.

Lemma take_id id l o r : take id l = Some (o, r) -> op_id o = id.
Proof.
  revert o r. induction l as [|x l IH]; simpl; intros o r H; [discriminate|].
  destruct (Nat.eqb_spec (op_id x) id) as [E|E].
  - injection H as Ho Hr. rewrite <- Ho. exact E.
  - destruct (take id l) as [[o' r']|]; [|discriminate].
    injection H as Ho Hr. rewrite <- Ho. eapply IH; reflexivity.
Qed.

Lemma take_In id l o r : take id l = Some (o, r) -> In o l.
Proof.
  revert o r. induction l as [|x l IH]; simpl; intros o r H; [discriminate|].
  destruct (op_id x =? id).
  - inversion H; subst; left; reflexivity.
  - destruct (take id l) as [[o' r']|]; [|discriminate].
    inversion H; subst. right. eapply IH; reflexivity.
Qed.

Lemma take_Forall (P : op K -> Prop) id l o r :
  take id l = Some (o, r) -> Forall P l -> Forall P r.
Proof.
  revert o r. induction l as [|x l IH]; simpl; intros o r H HP; [discriminate|].
  inversion HP as [|? ? Hx Hl]; subst.
  destruct (op_id x =? id).
  - inversion H; subst; exact Hl.
  - destruct (take id l) as [[o' r']|]; [|discriminate].
    inversion H; subst. constructor; [exact Hx | eapply IH; eauto].
Qed.

(** Taking operation [id] out removes one occurrence of [id] and leaves
    the other identifiers alone. *)
Lemma take_occ id l o r j :
  take id l = Some (o, r) ->
  occ j l = (if j =? id then 1 else 0) + occ j r.
Proof.
  revert o r. induction l as [|x l IH]; simpl; intros o r H; [discriminate|].
  destruct (Nat.eqb_spec (op_id x) id) as [E|E].
  - injection H as Ho Hr. rewrite <- Hr. unfold occ; simpl.
    rewrite <- E, (Nat.eqb_sym j). destruct (op_id x =? j); reflexivity.
  - destruct (take id l) as [[o' r']|] eqn:T; [|discriminate].
    inversion H; subst. specialize (IH _ _ eq_refl).
    unfold occ in *; simpl.
    destruct (op_id x =? j); simpl; rewrite IH; lia.
Qed.

Lemma take_None id l : take id l = None -> occ id l = 0.
Proof.
  induction l as [|x l IH]; simpl; intros H; [reflexivity|].
  unfold occ; simpl.
  destruct (op_id x =? id); [discriminate|].
  destruct (take id l) as [[o' r']|]; [discriminate|].
  apply IH; reflexivity.
Qed.

(** The operation issued last is found under its own identifier. *)
Lemma take_last n l req k :
  Forall (fun o => op_id o < n) l ->
  take n (l ++ [mk_op n req k]) = Some (mk_op n req k, l).
Proof.
  induction 1 as [|x l Hx _ IH]; simpl.
  - rewrite Nat.eqb_refl. reflexivity.
  - destruct (Nat.eqb_spec (op_id x) n); [lia|].
    rewrite IH. reflexivity.
Qed.

Lemma complete_last h req k :
  ids_below h ->
  complete (next_id h) (call_async req k h)
  = Some (mk_op (next_id h) req k,
          mk_handle (calls h ++ [req]) (outstanding h) (S (next_id h))).
Proof.
  intros H. unfold complete, call_async; simpl.
  rewrite (take_last _ _ _ _ H). reflexivity.
Qed.

Lemma complete_calls id h o h' :
  complete id h = Some (o, h') ->
  calls h' = calls h /\ next_id h' = next_id h.
Proof.
  unfold complete. destruct (take id (outstanding h)) as [[o' r]|]; [|discriminate].
  intros H; inversion H; subst; simpl; split; reflexivity.
Qed.

Lemma complete_ids_below id h o h' :
  complete id h = Some (o, h') -> ids_below h -> ids_below h'.
Proof.
  unfold complete, ids_below.
  destruct (take id (outstanding h)) as [[o' r]|] eqn:T; [|discriminate].
  intros H; inversion H; subst; simpl. apply (take_Forall _ _ _ _ _ T).
Qed.

(** Only identifiers that were handed out can complete. *)
Lemma complete_lt id h o h' :
  complete id h = Some (o, h') -> ids_below h -> id < next_id h.
Proof.
  unfold complete, ids_below.
  destruct (take id (outstanding h)) as [[o' r]|] eqn:T; [|discriminate].
  intros _ Hb.
  pose proof (take_In _ _ _ _ T) as HIn.
  pose proof (take_id _ _ _ _ T) as Hid.
  rewrite Forall_forall in Hb. specialize (Hb _ HIn). lia.
Qed.

Lemma call_async_ids_below req k h :
  ids_below h -> ids_below (call_async req k h).
Proof.
  unfold ids_below, call_async; simpl. intros H.
  apply Forall_app; split.
  - eapply Forall_impl; [|exact H]. simpl; intros; lia.
  - constructor; [simpl; lia | constructor].
Qed.

Lemma pending_call_async p req k h :
  pending p (call_async req k h) = pending p h + (if p req then 1 else 0).
Proof.
  unfold pending, call_async; simpl.
  rewrite filter_app, length_app; simpl.
  destruct (p req); reflexivity.
Qed.

End Take.

End HandleFacts.

(** ** The capture side *)

Module InputFacts.

Import NodePA HandleFacts AudioInput.

Lemma in_run_cons e evs a : run (e :: evs) a = run evs (step a e).
Proof. reflexivity. Qed.

Lemma in_run_app evs1 evs2 a : run (evs1 ++ evs2) a = run evs2 (run evs1 a).
Proof. apply fold_left_app. Qed.

(** A completion never calls the binding and never raises an error on the
    stream, whatever closure it runs. *)
Lemma on_complete_quiet id err buf a :
  calls (audio (on_complete id err buf a)) = calls (audio a)
  /\ next_id (audio (on_complete id err buf a)) = next_id (audio a)
  /\ errors (on_complete id err buf a) = errors a.
Proof.
  unfold on_complete.
  destruct (complete id (audio a)) as [[o h]|] eqn:C; [|auto].
  destruct (complete_calls _ _ _ _ C) as [Hc Hn].
  unfold run_callback.
  destruct (op_cb o) as [|cb].
  - destruct (negb (Js.truthy err)); simpl; auto.
  - destruct (Js.truthy cb && Js.is_function cb); [|simpl; auto].
    destruct cb; simpl; auto.
Qed.



(** The binding is asked to read exactly when [_read] is called. *)
Lemma requested_run evs a :
  requested (calls (audio (run evs a)))
  = requested (calls (audio a)) ++ pulled evs.
Proof.
  revert a; induction evs as [|e evs IH]; intros a.
  - simpl. rewrite app_nil_r. reflexivity.
  - rewrite in_run_cons, IH.
    destruct e as [[s|]| | |cb|id err buf]; simpl;
      rewrite ?requested_app, <- ?app_assoc; simpl;
      rewrite ?app_nil_r; try reflexivity.
    destruct (on_complete_quiet id err buf a) as [-> _]. reflexivity.
Qed.

Lemma in_wf_initial : wf initial.
Proof. split; constructor. Qed.

Lemma in_wf_step a e : wf a -> wf (step a e).
Proof.
  intros [Hb Hi]. destruct e as [size| | |cb|id err buf]; simpl.
  - split; simpl; [apply call_async_ids_below; exact Hb|].
    eapply Forall_impl; [|exact Hi]. simpl; intros; lia.
  - split; assumption.
  - split; assumption.
  - split; simpl; [apply call_async_ids_below; exact Hb|].
    eapply Forall_impl; [|exact Hi]. simpl; intros; lia.
  - unfold on_complete.
    destruct (complete id (audio a)) as [[o h]|] eqn:C; [|split; assumption].
    pose proof (complete_ids_below _ _ _ _ C Hb) as Hb'.
    destruct (complete_calls _ _ _ _ C) as [_ Hn].
    assert (Hlt : id < next_id h)
      by (rewrite Hn; apply (complete_lt _ _ _ _ C Hb)).
    unfold run_callback. destruct (op_cb o) as [|cb].
    + destruct (negb (Js.truthy err)); split; simpl; try assumption;
        rewrite Hn; exact Hi.
    + destruct (Js.truthy cb && Js.is_function cb);
        [|split; simpl; [assumption | rewrite Hn; exact Hi]].
      destruct cb; split; simpl; try assumption; try (rewrite Hn; exact Hi).
      apply Forall_app; split; [rewrite Hn; exact Hi|].
      constructor; [exact Hlt | constructor].
Qed.

Lemma in_wf_run evs a : wf a -> wf (run evs a).
Proof.
  revert a; induction evs as [|e evs IH]; intros a H; [exact H|].
  rewrite in_run_cons. apply IH, in_wf_step, H.
Qed.

(** One pull served: the read is issued, completes without error, and its
    buffer is at the end of the queue. *)
Lemma serve_one a size buf :
  wf a ->
  run [EvRead size; EvComplete (next_id (audio a)) Js.Null buf] a
  = push buf
      (set_audio
         (mk_handle
            (calls (audio a)
             ++ [ReqRead (match size with Some s => s | None => 1024%Z end)])
            (outstanding (audio a)) (S (next_id (audio a))))
         a).
Proof.
  intros [Hb _]. unfold run; simpl. unfold on_complete, _read; simpl.
  rewrite (complete_last _ _ _ Hb). reflexivity.
Qed.

(** No method call or completion changes the mode of the stream. *)
Lemma in_object_mode_step a e : objectMode (step a e) = objectMode a.
Proof.
  destruct e as [size| | |cb|id err buf]; try reflexivity.
  simpl. unfold on_complete.
  destruct (complete id (audio a)) as [[o h]|]; [|reflexivity].
  unfold run_callback. destruct (op_cb o) as [|cb].
  - destruct (negb (Js.truthy err)); reflexivity.
  - destruct (Js.truthy cb && Js.is_function cb); [|reflexivity].
    destruct cb; reflexivity.
Qed.

Lemma in_object_mode_run evs :
  forall a, objectMode (run evs a) = objectMode a.
Proof.
  induction evs as [|e evs IH]; intros a; [reflexivity|].
  rewrite in_run_cons, IH. apply in_object_mode_step.
Qed.

Lemma serial_run ps :
  forall a, wf a ->
    queue (run (serial (next_id (audio a)) ps) a)
    = queue a ++ flat_map (accepted (objectMode a)) (map snd ps)
    /\ calls (audio (run (serial (next_id (audio a)) ps) a))
       = calls (audio a)
         ++ map (fun p => ReqRead (match fst p with
                                   | Some s => s
                                   | None => 1024%Z
                                   end)) ps.
Proof.
  induction ps as [|[size buf] ps IH]; intros a Hwf.
  - simpl. rewrite !app_nil_r. split; reflexivity.
  - change (serial (next_id (audio a)) ((size, buf) :: ps))
      with ([EvRead size; EvComplete (next_id (audio a)) Js.Null buf]
              ++ serial (S (next_id (audio a))) ps).
    rewrite in_run_app.
    pose proof (in_wf_run [EvRead size; EvComplete (next_id (audio a)) Js.Null buf]
                       a Hwf) as Hwf'.
    rewrite (serve_one a size buf Hwf) in *.
    specialize (IH _ Hwf'). simpl in IH. destruct IH as [IHq IHc].
    rewrite IHq, IHc. simpl. rewrite <- !app_assoc. split; reflexivity.
Qed.

(** Three pulls issued before any completion, then completed in the order
    of issue: three reads of 1024 bytes, three chunks in request order. *)
Example three_pulls_in_flight :
  let a := run [EvStart; EvRead (Some 1024%Z); EvRead None; EvRead (Some 1024%Z);
                EvComplete 0 Js.Null [x0a]; EvComplete 1 Js.Null [x0b];
                EvComplete 2 Js.Undefined [x0c]] initial in
  calls (audio a) = [ReqStart; ReqRead 1024; ReqRead 1024; ReqRead 1024]
  /\ queue a = [[x0a]; [x0b]; [x0c]]
  /\ outstanding (audio a) = [].
Proof. repeat split. Qed.

(** A failed read between two successful ones leaves no trace in the
    queue; the binding completes an operation once. *)
Example failed_read_between_two :
  let a := run [EvRead None; EvComplete 0 Js.Null [x0a];
                EvRead None; EvComplete 1 (Js.Object 7) [x0b];
                EvComplete 1 Js.Null [x0b];
                EvRead None; EvComplete 2 Js.Null [x0c]] initial in
  queue a = [[x0a]; [x0c]] /\ errors a = [] /\ invoked a = [].
Proof. repeat split. Qed.

Lemma in_run_callback_effect id k err buf a :
  audio (run_callback id k err buf a) = audio a
  /\ invoked (run_callback id k err buf a)
     = invoked a ++ map (fun f => (f, id)) (fns_of k).
Proof.
  destruct k as [|cb]; simpl.
  - destruct (negb (Js.truthy err)); simpl; rewrite app_nil_r; auto.
  - destruct cb; simpl; rewrite ?app_nil_r; auto.
    + destruct b; simpl; rewrite ?app_nil_r; auto.
    + destruct (negb (z =? 0)%Z); simpl; rewrite ?app_nil_r; auto.
    + destruct (negb (String.eqb s EmptyString)); simpl; rewrite ?app_nil_r; auto.
Qed.

(** *** One operation, from its submission to its completion *)

Section InTracking.

Variables (k : nat) (c : callback).





End InTracking.





End InputFacts.

(** ** The playback side *)

Module OutputFacts.

Import NodePA HandleFacts AudioOutput.

Lemma out_run_cons e evs a : run (e :: evs) a = run evs (step a e).
Proof. reflexivity. Qed.


Lemma run_callback_effect id k a :
  audio (run_callback id k a) = audio a
  /\ on_finish (run_callback id k a) = on_finish a
  /\ invoked (run_callback id k a)
     = invoked a ++ map (fun f => (f, id)) (fns_of k).
Proof.
  destruct k as [cb|cb]; simpl.
  - destruct cb; simpl; rewrite ?app_nil_r; auto.
  - destruct cb; simpl; rewrite ?app_nil_r; auto.
    destruct b; simpl; rewrite ?app_nil_r; auto.
    destruct (negb (z =? 0)%Z); simpl; rewrite ?app_nil_r; auto.
    destruct (negb (String.eqb s EmptyString)); simpl; rewrite ?app_nil_r; auto.
Qed.

Lemma on_complete_calls id a :
  calls (audio (on_complete id a)) = calls (audio a)
  /\ next_id (audio (on_complete id a)) = next_id (audio a)
  /\ on_finish (on_complete id a) = on_finish a.
Proof.
  unfold on_complete.
  destruct (complete id (audio a)) as [[o h]|] eqn:C; [|auto].
  destruct (complete_calls _ _ _ _ C) as [Hc Hn].
  destruct (run_callback_effect id (op_cb o) (set_audio h a)) as (-> & -> & _).
  simpl. auto.
Qed.

(** Running the "finish" listeners asks the binding to quit once per
    listener and for nothing else. *)
Lemma listeners_effect ls :
  forall a,
    calls (audio (fold_left run_listener ls a))
    = calls (audio a) ++ map (fun _ => ReqQuit) ls
    /\ on_finish (fold_left run_listener ls a) = on_finish a
    /\ invoked (fold_left run_listener ls a) = invoked a.
Proof.
  induction ls as [|[] ls IH]; intros a; simpl.
  - rewrite app_nil_r. auto.
  - destruct (IH (quit Js.Undefined a)) as (-> & -> & ->).
    simpl. rewrite <- app_assoc. auto.
Qed.

Lemma on_finish_step a e : on_finish (step a e) = on_finish a.
Proof.
  destruct e; simpl; try reflexivity.
  - apply listeners_effect.
  - apply on_complete_calls.
Qed.

Lemma on_finish_run evs a : on_finish (run evs a) = on_finish a.
Proof.
  revert a; induction evs as [|e evs IH]; intros a; [reflexivity|].
  rewrite out_run_cons, IH. apply on_finish_step.
Qed.

Lemma written_quits (ls : list listener) :
  written (map (fun _ => ReqQuit) ls) = [].
Proof. induction ls; simpl; auto. Qed.

Lemma written_step a e :
  written (calls (audio (step a e)))
  = written (calls (audio a)) ++ pushed [e].
Proof.
  destruct e as [c enc cb| | |cb| |id]; simpl;
    rewrite ?written_app; simpl; rewrite ?app_nil_r; try reflexivity.
  - unfold emit_finish.
    destruct (listeners_effect (on_finish a) a) as (-> & _).
    rewrite written_app, written_quits, app_nil_r. reflexivity.
  - destruct (on_complete_calls id a) as (-> & _). reflexivity.
Qed.

Lemma pushed_cons e evs : pushed (e :: evs) = pushed [e] ++ pushed evs.
Proof. destruct e; reflexivity. Qed.

Lemma written_run evs a :
  written (calls (audio (run evs a)))
  = written (calls (audio a)) ++ pushed evs.
Proof.
  revert a; induction evs as [|e evs IH]; intros a.
  - simpl. rewrite app_nil_r. reflexivity.
  - rewrite out_run_cons, IH, written_step, (pushed_cons e evs), app_assoc.
    reflexivity.
Qed.

Lemma out_wf_initial : wf initial.
Proof. split; constructor. Qed.

Lemma wf_quit cb a : wf a -> wf (quit cb a).
Proof.
  intros [Hb Hi]. split; simpl; [apply call_async_ids_below; exact Hb|].
  eapply Forall_impl; [|exact Hi]. simpl; intros; lia.
Qed.

Lemma wf_listeners ls : forall a, wf a -> wf (fold_left run_listener ls a).
Proof.
  induction ls as [|[] ls IH]; intros a H; simpl; [exact H|].
  apply IH, wf_quit, H.
Qed.

Lemma out_wf_step a e : wf a -> wf (step a e).
Proof.
  intros H. destruct e as [c enc cb| | |cb| |id]; simpl.
  - destruct H as [Hb Hi].
    split; simpl; [apply call_async_ids_below; exact Hb|].
    eapply Forall_impl; [|exact Hi]. simpl; intros; lia.
  - exact H.
  - exact H.
  - apply wf_quit, H.
  - apply wf_listeners, H.
  - destruct H as [Hb Hi]. unfold on_complete.
    destruct (complete id (audio a)) as [[o h]|] eqn:C; [|split; assumption].
    pose proof (complete_ids_below _ _ _ _ C Hb) as Hb'.
    pose proof (complete_lt _ _ _ _ C Hb) as Hlt.
    destruct (complete_calls _ _ _ _ C) as [_ Hn].
    destruct (run_callback_effect id (op_cb o) (set_audio h a)) as (Ha & _ & Hv).
    split; [rewrite Ha; exact Hb'|].
    rewrite Ha, Hv. simpl. rewrite Hn.
    apply Forall_app; split; [exact Hi|].
    apply Forall_forall. intros x Hx. apply in_map_iff in Hx.
    destruct Hx as (f & <- & _). exact Hlt.
Qed.

Lemma out_wf_run evs a : wf a -> wf (run evs a).
Proof.
  revert a; induction evs as [|e evs IH]; intros a H; [exact H|].
  rewrite out_run_cons. apply IH, out_wf_step, H.
Qed.

(** *** One operation, from its submission to its completion *)

Section OutTracking.

Variables (k : nat) (c : callback).

Lemma tracked_submit req c' d s :
  tracked k c d s ->
  tracked k c d (set_audio (call_async req c' (audio s)) s).
Proof.
  intros (Hwf & Hk & H).
  assert (Hwf' : wf (set_audio (call_async req c' (audio s)) s)).
  { destruct Hwf as [Hb Hi].
    split; simpl; [apply call_async_ids_below; exact Hb|].
    eapply Forall_impl; [|exact Hi]. simpl; intros; lia. }
  split; [exact Hwf'|]. split; [simpl; lia|].
  assert (Hocc : occ k (outstanding (audio s) ++ [mk_op (next_id (audio s)) req c'])
                 = occ k (outstanding (audio s))).
  { rewrite occ_app. unfold occ at 2; simpl.
    destruct (Nat.eqb_spec (next_id (audio s)) k); [lia|]. simpl. lia. }
  destruct d; simpl; rewrite Hocc.
  - exact H.
  - destruct H as (Ho & Hc & Hr). repeat split; try assumption.
    apply Forall_app; split; [exact Hc|].
    constructor; [simpl; intros; lia | constructor].
Qed.

Lemma tracked_listeners ls d :
  forall s, tracked k c d s -> tracked k c d (fold_left run_listener ls s).
Proof.
  induction ls as [|[] ls IH]; intros s H; simpl; [exact H|].
  apply IH. unfold quit. apply tracked_submit, H.
Qed.

Lemma tracked_complete id d s :
  tracked k c d s -> tracked k c (d || (id =? k)) (on_complete id s).
Proof.
  intros H.
  pose proof (out_wf_step s (EvComplete id) (proj1 H)) as Hwf'.
  simpl in Hwf'. destruct H as (Hwf & Hk & H).
  unfold on_complete in *.
  destruct (complete id (audio s)) as [[o h]|] eqn:C.
  - destruct (run_callback_effect id (op_cb o) (set_audio h s)) as (Ha & _ & Hv).
    destruct (complete_calls _ _ _ _ C) as [_ Hn].
    unfold complete in C.
    destruct (take id (outstanding (audio s))) as [[o' r]|] eqn:T; [|discriminate].
    injection C as Ho Hh. subst o'.
    assert (Hout : outstanding h = r) by (rewrite <- Hh; reflexivity).
    pose proof (take_occ _ _ _ _ k T) as Hocc.
    split; [exact Hwf'|]. split; [rewrite Ha; simpl; lia|].
    rewrite Ha, Hv. simpl. rewrite Hout, ran_by_app, ran_by_map.
    rewrite (Nat.eqb_sym k id) in Hocc.
    destruct (Nat.eqb_spec id k) as [E|E].
    + destruct d; simpl.
      * destruct H as [H0 _]. lia.
      * destruct H as (H1 & Hc & Hr). split; [lia|].
        rewrite Hr. simpl. f_equal.
        rewrite Forall_forall in Hc.
        apply (Hc o (take_In _ _ _ _ T)).
        rewrite (take_id _ _ _ _ T). exact E.
    + rewrite orb_false_r, app_nil_r. simpl in Hocc.
      destruct d.
      * destruct H as [H0 Hr]. split; [lia | exact Hr].
      * destruct H as (H1 & Hc & Hr). repeat split; [lia| |exact Hr].
        apply (take_Forall _ _ _ _ _ T Hc).
  - destruct (Nat.eqb_spec id k) as [E|E].
    + subst id. unfold complete in C.
      destruct (take k (outstanding (audio s))) as [[o' r]|] eqn:T; [discriminate|].
      pose proof (take_None _ _ T) as H0.
      destruct d; simpl.
      * split; [exact Hwf|]. split; [exact Hk | exact H].
      * destruct H as (H1 & _). lia.
    + rewrite orb_false_r. split; [exact Hwf|]. split; [exact Hk | exact H].
Qed.

Lemma tracked_step d s e :
  tracked k c d s -> tracked k c (d || completes k e) (step s e).
Proof.
  intros H. destruct e as [ch enc cb| | |cb| |id]; simpl;
    rewrite ?orb_false_r.
  - apply tracked_submit, H.
  - exact H.
  - exact H.
  - apply tracked_submit, H.
  - apply tracked_listeners, H.
  - apply tracked_complete, H.
Qed.

Lemma tracked_run evs :
  forall d s,
    tracked k c d s -> tracked k c (d || existsb (completes k) evs) (run evs s).
Proof.
  induction evs as [|e evs IH]; intros d s H.
  - simpl. rewrite orb_false_r. exact H.
  - rewrite out_run_cons. simpl existsb. rewrite orb_assoc.
    apply IH, tracked_step, H.
Qed.

End OutTracking.

(** An operation submitted to a well-formed object starts its life. *)
Lemma tracked_new req c s :
  wf s ->
  tracked (next_id (audio s)) c false
          (set_audio (call_async req c (audio s)) s).
Proof.
  intros [Hb Hi].
  split.
  { split; simpl; [apply call_async_ids_below; exact Hb|].
    eapply Forall_impl; [|exact Hi]. simpl; intros; lia. }
  split; [simpl; lia|]. simpl.
  rewrite occ_app, (occ_fresh _ _ _ Hb (le_n _)).
  unfold occ; simpl. rewrite Nat.eqb_refl. simpl.
  split; [reflexivity|]. split.
  - apply Forall_app; split.
    + unfold ids_below in Hb. eapply Forall_impl; [|exact Hb].
      simpl; intros; lia.
    + constructor; [reflexivity | constructor].
  - apply (ran_by_fresh _ _ _ Hi (le_n _)).
Qed.

(** From its submission on, an operation runs what its closure runs, once,
    when the binding completes it, and nothing before. *)
Lemma out_ran_by_run req c evs0 evs :
  let s := run evs0 initial in
  ran_by (next_id (audio s))
         (invoked (run evs (set_audio (call_async req c (audio s)) s)))
  = if existsb (completes (next_id (audio s))) evs then fns_of c else [].
Proof.
  intros s.
  assert (Hwf : wf s) by (apply out_wf_run, out_wf_initial).
  pose proof (tracked_run _ c evs false _ (tracked_new req c s Hwf)) as (_ & _ & H).
  simpl in H.
  destruct (existsb (completes (next_id (audio s))) evs).
  - exact (proj2 H).
  - exact (proj2 (proj2 H)).
Qed.

(** Two chunks written back to back: both are at the binding before
    either completes; the callbacks run as the binding completes them. *)
Example two_writes_back_to_back :
  let a := run [EvWrite [x0a] Js.Undefined (Js.Function (Js.UserFn 0));
                EvWrite [x0b] Js.Undefined (Js.Function (Js.UserFn 1))]
               initial in
  calls (audio a) = [ReqWrite [x0a]; ReqWrite [x0b]]
  /\ pending is_write (audio a) = 2
  /\ invoked a = []
  /\ invoked (run [EvComplete 1; EvComplete 0; EvComplete 1] a)
     = [(Js.UserFn 1, 1); (Js.UserFn 0, 0)].
Proof. repeat split. Qed.

(** End of supply after two chunks: the quit request follows the writes. *)
Example finish_after_two_writes :
  let a := run [EvStart; EvWrite [x0a] Js.Undefined Js.Undefined;
                EvWrite [x0b] Js.Undefined Js.Undefined; EvFinish]
               initial in
  calls (audio a) = [ReqStart; ReqWrite [x0a]; ReqWrite [x0b]; ReqQuit]
  /\ map (@op_cb callback) (outstanding (audio a))
     = [Passed (Js.Function Js.NoopArrow); Passed (Js.Function Js.NoopArrow);
        QuitHandler Js.Undefined].
Proof. repeat split. Qed.

(** *** [write] *)

Lemma write_effect chunk encoding cb a :
  snd (write chunk encoding cb a)
  = set_audio
      (call_async (ReqWrite chunk)
                  (Passed (Js.default_param cb (Js.Function Js.NoopArrow)))
                  (audio a))
      a.
Proof. reflexivity. Qed.

(** C3: every call of [write], in whatever state the object is, returns
    [true], makes exactly one [write] call on the binding, with the chunk it
    was given, and runs nothing itself.  The completion value it hands to
    the binding is the [cb] it was given: a function [f] is handed over as
    it is and is run, once, when the binding completes that write and not
    before; only for an omitted [cb] is the no-op arrow handed over in its
    place. *)
Theorem write_submits_one_chunk
  (evs0 : list event) (chunk : Buffer) (encoding : Js.value) :
  let a := run evs0 initial in
  let k := next_id (audio a) in
  (forall cb,
      let r := write chunk encoding cb a in
      fst r = true
      /\ calls (audio (snd r)) = calls (audio a) ++ [ReqWrite chunk]
      /\ written (calls (audio (snd r))) = written (calls (audio a)) ++ [chunk]
      /\ invoked (snd r) = invoked a
      /\ faults (snd r) = faults a)
  /\ (forall f,
         let r := write chunk encoding (Js.Function f) a in
         audio (snd r)
         = call_async (ReqWrite chunk) (Passed (Js.Function f)) (audio a)
         /\ invoked (on_complete k (snd r)) = invoked a ++ [(f, k)]
         /\ forall evs,
              ran_by k (invoked (run evs (snd r)))
              = if existsb (completes k) evs then [f] else [])
  /\ (let r := write chunk encoding Js.Undefined a in
      audio (snd r)
      = call_async (ReqWrite chunk) (Passed (Js.Function Js.NoopArrow)) (audio a)
      /\ forall evs,
           ran_by k (invoked (run evs (snd r)))
           = if existsb (completes k) evs then [Js.NoopArrow] else [])
  /\ (forall cb,
         cb <> Js.Undefined ->
         audio (snd (write chunk encoding cb a))
         = call_async (ReqWrite chunk) (Passed cb) (audio a)).
Proof.
  intros a k.
  assert (Hwf : wf a) by (apply out_wf_run, out_wf_initial).
  split; [|split; [|split]].
  - intros cb r. repeat split.
    simpl. rewrite written_app. reflexivity.
  - intros f r. split; [reflexivity|]. split.
    + unfold r, on_complete, write. simpl snd. simpl audio.
      rewrite (complete_last _ _ _ (proj1 Hwf)). reflexivity.
    + intros evs. unfold r. rewrite write_effect.
      apply (out_ran_by_run (ReqWrite chunk) (Passed (Js.Function f)) evs0 evs).
  - split; [reflexivity|].
    intros evs. rewrite write_effect.
    apply (out_ran_by_run (ReqWrite chunk)
                          (Passed (Js.Function Js.NoopArrow)) evs0 evs).
  - intros cb Hcb. destruct cb; try reflexivity. contradiction Hcb; reflexivity.
Qed.

Lemma write_submits_one_chunk_witness :
  let r := write [x01] Js.Undefined (Js.Function (Js.UserFn 0)) initial in
  Js.Function (Js.UserFn 0) <> Js.Undefined
  /\ fst r = true
  /\ calls (audio (snd r)) = [ReqWrite [x01]]
  /\ map (@op_cb callback) (outstanding (audio (snd r)))
     = [Passed (Js.Function (Js.UserFn 0))]
  /\ invoked (snd r) = []
  /\ invoked (on_complete 0 (snd r)) = [(Js.UserFn 0, 0)].
Proof.
  destruct (write_submits_one_chunk [] [x01] Js.Undefined) as (H1 & H2 & _ & H4).
  assert (Hne : Js.Function (Js.UserFn 0) <> Js.Undefined) by discriminate.
  split; [exact Hne|].
  destruct (H1 (Js.Function (Js.UserFn 0))) as (Ht & Hc & _ & Hi & _).
  split; [exact Ht|]. split; [exact Hc|].
  split.
  { pose proof (H4 (Js.Function (Js.UserFn 0)) Hne) as E.
    change (run [] initial) with initial in E.
    rewrite E. reflexivity. }
  split; [exact Hi|].
  exact (proj1 (proj2 (H2 (Js.UserFn 0)))).
Defined.

(** C2, as the code has it: [write] keeps no account of outstanding writes
    and never holds a chunk back.  Every call submits its chunk to the
    binding at once, whatever is outstanding, so after a run of [write]
    calls with no completion in between the binding holds one more
    outstanding write per call, submitted in call order. *)
Theorem write_never_waits (ws : list event) :
  forallb is_push ws = true ->
  forall a,
    pending is_write (audio (run ws a))
    = pending is_write (audio a) + List.length ws
    /\ calls (audio (run ws a)) = calls (audio a) ++ map ReqWrite (pushed ws).
Proof.
  induction ws as [|e ws IH]; intros Hall a.
  - simpl. rewrite app_nil_r. split; [lia | reflexivity].
  - simpl in Hall. apply andb_prop in Hall. destruct Hall as [He Hws].
    destruct e as [ch enc cb| | |cb| |id]; try discriminate.
    rewrite out_run_cons.
    destruct (IH Hws (step a (EvWrite ch enc cb))) as [-> ->].
    simpl. rewrite pending_call_async. simpl.
    rewrite <- app_assoc. split; [lia | reflexivity].
Qed.

Lemma write_never_waits_witness :
  let ws := [EvWrite [x01] Js.Undefined (Js.Function (Js.UserFn 0));
             EvWrite [x02] Js.Undefined (Js.Function (Js.UserFn 1));
             EvWrite [x03] Js.Undefined Js.Undefined] in
  forallb is_push ws = true
  /\ pending is_write (audio (run ws initial)) = 3
  /\ calls (audio (run ws initial))
     = [ReqWrite [x01]; ReqWrite [x02]; ReqWrite [x03]].
Proof.
  split; [reflexivity|].
  exact (write_never_waits
           [EvWrite [x01] Js.Undefined (Js.Function (Js.UserFn 0));
            EvWrite [x02] Js.Undefined (Js.Function (Js.UserFn 1));
            EvWrite [x03] Js.Undefined Js.Undefined]
           eq_refl initial).
Defined.

(** C2, as stated, fails: two [write] calls with no completion between
    them leave two writes outstanding at the binding. *)
Lemma second_write_is_not_held_back :
  pending is_write
    (audio (run [EvWrite [x01] Js.Undefined (Js.Function (Js.UserFn 0));
                 EvWrite [x02] Js.Undefined (Js.Function (Js.UserFn 1))]
                initial)) = 2
  /\ ~ one_write_outstanding.
Proof.
  split; [reflexivity|].
  intros H.
  specialize (H [EvWrite [x01] Js.Undefined (Js.Function (Js.UserFn 0));
                 EvWrite [x02] Js.Undefined (Js.Function (Js.UserFn 1))]).
  vm_compute in H. lia.
Qed.

(** C5: the chunks of the [write] requests the binding receives are the
    chunks of the [write] calls made on the object, in the order of the
    calls, whatever else is called or completes in between. *)
Theorem writes_reach_binding_in_order :
  (forall evs a,
      written (calls (audio (run evs a)))
      = written (calls (audio a)) ++ pushed evs)
  /\ (forall (cs : list (Buffer * Js.value)) a,
         calls (audio (run (map (fun c => EvWrite (fst c) Js.Undefined (snd c)) cs) a))
         = calls (audio a) ++ map (fun c => ReqWrite (fst c)) cs).
Proof.
  split; [exact written_run|].
  intros cs. induction cs as [|[ch cb] cs IH]; intros a; simpl map.
  - simpl. rewrite app_nil_r. reflexivity.
  - rewrite out_run_cons, IH. simpl. rewrite <- app_assoc. reflexivity.
Qed.

(** C6: a constructed [AudioOutput] listens to its own "finish" event with
    [quit] bound to itself and keeps doing so; when the stream emits
    "finish", the listener makes one [quit] call on the binding, with the
    handler of a [quit()] called without a callback. *)
Theorem finish_triggers_quit devices options a0 :
  constructor devices options = Js.Normal a0 ->
  on_finish a0 = [BoundQuit]
  /\ forall evs,
       let a := run evs a0 in
       emit_finish a = quit Js.Undefined a
       /\ calls (audio (emit_finish a)) = calls (audio a) ++ [ReqQuit]
       /\ outstanding (audio (emit_finish a))
          = outstanding (audio a)
            ++ [mk_op (next_id (audio a)) ReqQuit (QuitHandler Js.Undefined)].
Proof.
  unfold constructor. destruct (open devices options) as [h|e]; [|discriminate].
  intros H. injection H as H. split; [rewrite <- H; reflexivity|].
  intros evs. set (a := run evs a0).
  assert (E : emit_finish a = quit Js.Undefined a).
  { unfold emit_finish, a. rewrite on_finish_run, <- H. reflexivity. }
  rewrite E. repeat split.
Qed.

Lemma finish_triggers_quit_witness :
  constructor [] (mk_options None None None None) = Js.Normal initial
  /\ on_finish initial = [BoundQuit]
  /\ calls (audio (emit_finish (run [EvStart; EvWrite [x01] Js.Undefined Js.Undefined]
                                    initial)))
     = [ReqStart; ReqWrite [x01]; ReqQuit].
Proof.
  split; [reflexivity|].
  destruct (finish_triggers_quit [] (mk_options None None None None) initial
                                 eq_refl) as [H1 H2].
  split; [exact H1|].
  exact (proj1 (proj2 (H2 [EvStart; EvWrite [x01] Js.Undefined Js.Undefined]))).
Defined.

End OutputFacts.

(** ** Both classes: construction, [quit] and [abort] *)

Module Lifecycle.

Import NodePA HandleFacts.

Module In := AudioInput.
Module Out := AudioOutput.

(** *** The call log is write-only for the classes *)

Lemma in_step_log a e :
  exists new,
    calls (In.audio (In.step a e)) = calls (In.audio a) ++ new
    /\ forall cs,
         In.step (In.with_calls cs a) e
         = In.with_calls (cs ++ new) (In.step a e).
Proof.
  destruct e as [[s|]| | |cb|id err buf];
    try (eexists; split; [reflexivity | intros cs; reflexivity]).
  exists []. simpl. unfold In.on_complete, complete; simpl.
  destruct (take id (outstanding (In.audio a))) as [[o r]|].
  - split.
    + rewrite app_nil_r.
      destruct (InputFacts.in_run_callback_effect id (op_cb o) err buf
                  (In.set_audio
                     (mk_handle (calls (In.audio a)) r (next_id (In.audio a))) a))
        as [-> _].
      reflexivity.
    + intros cs. rewrite app_nil_r. unfold In.run_callback.
      destruct (op_cb o) as [|cb].
      * destruct (negb (Js.truthy err)); reflexivity.
      * destruct (Js.truthy cb && Js.is_function cb); [|reflexivity].
        destruct cb; reflexivity.
  - split; [rewrite app_nil_r; reflexivity|].
    intros cs. rewrite app_nil_r. reflexivity.
Qed.

Lemma in_run_log evs :
  forall a,
    exists l,
      calls (In.audio (In.run evs a)) = calls (In.audio a) ++ l
      /\ forall cs,
           In.run evs (In.with_calls cs a)
           = In.with_calls (cs ++ l) (In.run evs a).
Proof.
  induction evs as [|e evs IH]; intros a.
  - exists []. simpl. rewrite app_nil_r. split; [reflexivity|].
    intros cs. rewrite app_nil_r. reflexivity.
  - destruct (in_step_log a e) as (new & Hn & Hs).
    destruct (IH (In.step a e)) as (l & Hl & Hr).
    exists (new ++ l). split.
    + rewrite InputFacts.in_run_cons, Hl, Hn, app_assoc. reflexivity.
    + intros cs. rewrite !InputFacts.in_run_cons, Hs, Hr, app_assoc.
      reflexivity.
Qed.

Lemma out_listeners_log ls :
  forall a cs,
    fold_left Out.run_listener ls (Out.with_calls cs a)
    = Out.with_calls (cs ++ map (fun _ => ReqQuit) ls)
                     (fold_left Out.run_listener ls a).
Proof.
  induction ls as [|[] ls IH]; intros a cs; simpl.
  - rewrite app_nil_r. reflexivity.
  - change (Out.quit Js.Undefined (Out.with_calls cs a))
      with (Out.with_calls (cs ++ [ReqQuit]) (Out.quit Js.Undefined a)).
    rewrite IH, <- app_assoc. reflexivity.
Qed.

Lemma out_step_log a e :
  exists new,
    calls (Out.audio (Out.step a e)) = calls (Out.audio a) ++ new
    /\ forall cs,
         Out.step (Out.with_calls cs a) e
         = Out.with_calls (cs ++ new) (Out.step a e).
Proof.
  destruct e as [ch enc cb| | |cb| |id];
    try (eexists; split; [reflexivity | intros cs; reflexivity]).
  - exists (map (fun _ => ReqQuit) (Out.on_finish a)). simpl. split.
    + apply OutputFacts.listeners_effect.
    + intros cs. unfold Out.emit_finish. apply out_listeners_log.
  - exists []. simpl. unfold Out.on_complete, complete; simpl.
    destruct (take id (outstanding (Out.audio a))) as [[o r]|].
    + split.
      * rewrite app_nil_r.
        destruct (OutputFacts.run_callback_effect id (op_cb o)
                    (Out.set_audio
                       (mk_handle (calls (Out.audio a)) r (next_id (Out.audio a)))
                       a))
          as (-> & _).
        reflexivity.
      * intros cs. rewrite app_nil_r. unfold Out.run_callback.
        destruct (op_cb o) as [cb|cb].
        -- destruct cb; reflexivity.
        -- destruct (Js.truthy cb && Js.is_function cb); [|reflexivity].
           destruct cb; reflexivity.
    + split; [rewrite app_nil_r; reflexivity|].
      intros cs. rewrite app_nil_r. reflexivity.
Qed.

Lemma out_run_log evs :
  forall a,
    exists l,
      calls (Out.audio (Out.run evs a)) = calls (Out.audio a) ++ l
      /\ forall cs,
           Out.run evs (Out.with_calls cs a)
           = Out.with_calls (cs ++ l) (Out.run evs a).
Proof.
  induction evs as [|e evs IH]; intros a.
  - exists []. simpl. rewrite app_nil_r. split; [reflexivity|].
    intros cs. rewrite app_nil_r. reflexivity.
  - destruct (out_step_log a e) as (new & Hn & Hs).
    destruct (IH (Out.step a e)) as (l & Hl & Hr).
    exists (new ++ l). split.
    + rewrite OutputFacts.out_run_cons, Hl, Hn, app_assoc. reflexivity.
    + intros cs. rewrite !OutputFacts.out_run_cons, Hs, Hr, app_assoc.
      reflexivity.
Qed.

(** *** [quit] *)

Lemma in_quit_completion cb err buf a :
  In.wf a ->
  In.invoked (In.on_complete (next_id (In.audio a)) err buf (In.quit cb a))
  = In.invoked a
    ++ map (fun f => (f, next_id (In.audio a))) (Js.guarded_call cb)
  /\ In.errors (In.on_complete (next_id (In.audio a)) err buf (In.quit cb a))
     = In.errors a
  /\ outstanding
       (In.audio (In.on_complete (next_id (In.audio a)) err buf (In.quit cb a)))
     = outstanding (In.audio a).
Proof.
  intros [Hb _]. split; [|split].
  - unfold In.on_complete, In.quit; simpl.
    rewrite (complete_last _ _ _ Hb). simpl op_cb.
    exact (proj2 (InputFacts.in_run_callback_effect
                    _ (In.QuitHandler cb) _ _ _)).
  - destruct (InputFacts.on_complete_quiet (next_id (In.audio a)) err buf
                (In.quit cb a)) as (_ & _ & ->).
    reflexivity.
  - unfold In.on_complete, In.quit; simpl.
    rewrite (complete_last _ _ _ Hb). simpl op_cb.
    rewrite (proj1 (InputFacts.in_run_callback_effect
                      _ (In.QuitHandler cb) _ _ _)).
    reflexivity.
Qed.

Lemma in_quit_handler_faults id cb err buf a :
  In.faults (In.run_callback id (In.QuitHandler cb) err buf a) = In.faults a.
Proof.
  simpl. destruct (Js.truthy cb && Js.is_function cb) eqn:E; [|reflexivity].
  destruct cb; simpl in E; try discriminate; try reflexivity;
    rewrite andb_false_r in E; discriminate.
Qed.

Lemma in_quit_completion_faults cb err buf a :
  In.wf a ->
  In.faults (In.on_complete (next_id (In.audio a)) err buf (In.quit cb a))
  = In.faults a.
Proof.
  intros [Hb _]. unfold In.on_complete, In.quit; simpl.
  rewrite (complete_last _ _ _ Hb). simpl op_cb.
  rewrite in_quit_handler_faults. reflexivity.
Qed.

Lemma out_quit_handler_faults id cb a :
  Out.faults (Out.run_callback id (Out.QuitHandler cb) a) = Out.faults a.
Proof.
  simpl. destruct (Js.truthy cb && Js.is_function cb) eqn:E; [|reflexivity].
  destruct cb; simpl in E; try discriminate; try reflexivity;
    rewrite andb_false_r in E; discriminate.
Qed.

Lemma out_quit_completion cb a :
  Out.wf a ->
  Out.invoked (Out.on_complete (next_id (Out.audio a)) (Out.quit cb a))
  = Out.invoked a
    ++ map (fun f => (f, next_id (Out.audio a))) (Js.guarded_call cb)
  /\ Out.faults (Out.on_complete (next_id (Out.audio a)) (Out.quit cb a))
     = Out.faults a
  /\ outstanding
       (Out.audio (Out.on_complete (next_id (Out.audio a)) (Out.quit cb a)))
     = outstanding (Out.audio a).
Proof.
  intros [Hb _].
  unfold Out.on_complete, Out.quit; simpl.
  rewrite (complete_last _ _ _ Hb). simpl op_cb.
  split; [|split].
  - exact (proj2 (proj2 (OutputFacts.run_callback_effect
                           _ (Out.QuitHandler cb) _))).
  - rewrite out_quit_handler_faults. reflexivity.
  - rewrite (proj1 (OutputFacts.run_callback_effect
                      _ (Out.QuitHandler cb) _)).
    reflexivity.
Qed.


(** C10: on either class, [quit] called with any value for [cb], a
    missing one included, makes its one [quit] call on the binding with a
    handler of the class; when the binding completes it, the handler runs
    [cb] if it is a function and otherwise calls nothing, so that no
    TypeError is thrown for a [cb] that is missing or not a function, and
    nothing is raised on the stream.  Calling such a [cb] would throw: it is
    the test in the handler that keeps the call from being made.  [write]
    called without [cb] hands the no-op arrow to the binding, so that for a
    [cb] that is omitted or a function the binding receives a callable
    value and running it raises nothing. *)
Theorem missing_callbacks_are_tolerated :
  (forall evs0 cb err buf,
      let a := In.run evs0 In.initial in
      let k := next_id (In.audio a) in
      In.audio (In.quit cb a)
      = call_async ReqQuit (In.QuitHandler cb) (In.audio a)
      /\ In.invoked (In.on_complete k err buf (In.quit cb a))
         = In.invoked a ++ map (fun f => (f, k)) (Js.guarded_call cb)
      /\ In.errors (In.on_complete k err buf (In.quit cb a)) = In.errors a
      /\ In.faults (In.on_complete k err buf (In.quit cb a)) = In.faults a)
  /\ (forall cb id a a',
         Js.is_function cb = false ->
         In.faults (In.invoke cb id a) = In.faults a ++ [id]
         /\ Out.faults (Out.invoke cb id a') = Out.faults a' ++ [id])
  /\ (forall evs0 cb,
         let a := Out.run evs0 Out.initial in
         let k := next_id (Out.audio a) in
         Out.audio (Out.quit cb a)
         = call_async ReqQuit (Out.QuitHandler cb) (Out.audio a)
         /\ Out.callable (Out.QuitHandler cb) = true
         /\ Out.invoked (Out.on_complete k (Out.quit cb a))
            = Out.invoked a ++ map (fun f => (f, k)) (Js.guarded_call cb)
         /\ Out.faults (Out.on_complete k (Out.quit cb a)) = Out.faults a)
  /\ (forall cb, Js.is_function cb = false -> Js.guarded_call cb = [])
  /\ (forall evs0 chunk encoding,
         let a := Out.run evs0 Out.initial in
         Out.audio (snd (Out.write chunk encoding Js.Undefined a))
         = call_async (ReqWrite chunk) (Out.Passed (Js.Function Js.NoopArrow))
                      (Out.audio a))
  /\ (forall evs0 chunk encoding cb,
         cb = Js.Undefined \/ Js.is_function cb = true ->
         let a := Out.run evs0 Out.initial in
         let k := next_id (Out.audio a) in
         Out.callable
           (Out.Passed (Js.default_param cb (Js.Function Js.NoopArrow))) = true
         /\ Out.faults (Out.on_complete k (snd (Out.write chunk encoding cb a)))
            = Out.faults a).
Proof.
  split; [|split; [|split; [|split; [|split]]]].
  - intros evs0 cb err buf a k.
    assert (Hwf : In.wf a) by (apply InputFacts.in_wf_run, InputFacts.in_wf_initial).
    destruct (in_quit_completion cb err buf a Hwf) as (Hi & He & _).
    split; [reflexivity|]. split; [exact Hi|]. split; [exact He|].
    apply in_quit_completion_faults, Hwf.
  - intros cb id a a' H.
    destruct cb; try discriminate; split; reflexivity.
  - intros evs0 cb a k.
    assert (Hwf : Out.wf a)
      by (apply OutputFacts.out_wf_run, OutputFacts.out_wf_initial).
    destruct (out_quit_completion cb a Hwf) as (Hi & Hf & _).
    split; [reflexivity|]. split; [reflexivity|]. split; assumption.
  - intros cb H. destruct cb; try reflexivity. discriminate.
  - intros evs0 chunk encoding a. reflexivity.
  - intros evs0 chunk encoding cb Hcb a k.
    assert (Hwf : Out.wf a)
      by (apply OutputFacts.out_wf_run, OutputFacts.out_wf_initial).
    assert (Hfn : exists f,
               Js.default_param cb (Js.Function Js.NoopArrow) = Js.Function f).
    { destruct Hcb as [-> | Hcb]; [eexists; reflexivity|].
      destruct cb; try discriminate. eexists; reflexivity. }
    destruct Hfn as [f Hf]. split; [rewrite Hf; reflexivity|].
    unfold Out.on_complete, Out.write. simpl snd. simpl Out.audio.
    rewrite (complete_last _ _ _ (proj1 Hwf)). simpl op_cb.
    rewrite Hf. reflexivity.
Qed.

Lemma missing_callbacks_are_tolerated_witness :
  (Js.is_function (Js.Number 3) = false
   /\ In.faults (In.invoke (Js.Number 3) 0 In.initial) = [0])
  /\ In.faults (In.on_complete 0 Js.Null [] (In.quit (Js.Number 3) In.initial))
     = []
  /\ (Js.Undefined = Js.Undefined \/ Js.is_function Js.Undefined = true)
  /\ Out.callable
       (Out.Passed (Js.default_param Js.Undefined (Js.Function Js.NoopArrow)))
     = true
  /\ Out.faults (Out.on_complete 0 (snd (Out.write [x01] Js.Undefined Js.Undefined
                                                  Out.initial))) = [].
Proof.
  destruct missing_callbacks_are_tolerated as (H1 & H2 & _ & _ & _ & H6).
  split; [split; [reflexivity|]|].
  { exact (proj1 (H2 (Js.Number 3) 0 In.initial Out.initial eq_refl)). }
  split.
  { exact (proj2 (proj2 (proj2 (H1 [] (Js.Number 3) Js.Null [])))). }
  split; [left; reflexivity|].
  exact (H6 [] [x01] Js.Undefined Js.Undefined (or_introl eq_refl)).
Defined.

(** *** [abort] *)

(** C8, as stated, fails: a chunk written to an [AudioOutput] after
    [abort()] is submitted to the binding like any other. *)
Lemma write_after_abort_is_submitted :
  written
    (calls (Out.audio (Out.run [Out.EvWrite [x01] Js.Undefined Js.Undefined]
                               (Out.abort Out.initial))))
  = [[x01]]
  /\ written (calls (Out.audio Out.initial)) = []
  /\ ~ abort_immediacy.
Proof.
  split; [reflexivity|]. split; [reflexivity|].
  intros [_ H].
  specialize (H [] [Out.EvWrite [x01] Js.Undefined Js.Undefined]).
  vm_compute in H. discriminate.
Qed.

(** C8, as the code has it: on either class [abort()] makes one [abort]
    call on the binding and does nothing else; the classes keep no record
    of having been stopped.  Whatever is called or completes afterwards has
    the effect it would have had without the [abort()], the binding's log
    having the abort request at the point of the call: the delivery queue,
    the outstanding operations and the chunks submitted are the same.  To
    discard what is in flight and to refuse what comes later is left to
    the binding. *)
Theorem abort_only_forwards :
  (forall a, In.abort a = In.with_calls (calls (In.audio a) ++ [ReqAbort]) a)
  /\ (forall a, Out.abort a = Out.with_calls (calls (Out.audio a) ++ [ReqAbort]) a)
  /\ (forall evs a,
         exists l,
           calls (In.audio (In.run evs a)) = calls (In.audio a) ++ l
           /\ In.run evs (In.abort a)
              = In.with_calls (calls (In.audio a) ++ ReqAbort :: l)
                              (In.run evs a))
  /\ (forall evs a,
         exists l,
           calls (Out.audio (Out.run evs a)) = calls (Out.audio a) ++ l
           /\ Out.run evs (Out.abort a)
              = Out.with_calls (calls (Out.audio a) ++ ReqAbort :: l)
                               (Out.run evs a))
  /\ (forall evs a,
         In.queue (In.run evs (In.abort a)) = In.queue (In.run evs a)
         /\ outstanding (In.audio (In.run evs (In.abort a)))
            = outstanding (In.audio (In.run evs a)))
  /\ (forall evs a,
         written (calls (Out.audio (Out.run evs (Out.abort a))))
         = written (calls (Out.audio (Out.run evs a)))
         /\ outstanding (Out.audio (Out.run evs (Out.abort a)))
            = outstanding (Out.audio (Out.run evs a))).
Proof.
  assert (HI : forall evs a,
             exists l,
               calls (In.audio (In.run evs a)) = calls (In.audio a) ++ l
               /\ In.run evs (In.abort a)
                  = In.with_calls (calls (In.audio a) ++ ReqAbort :: l)
                                  (In.run evs a)).
  { intros evs a. destruct (in_run_log evs a) as (l & Hl & Hr).
    exists l. split; [exact Hl|].
    change (In.abort a) with (In.with_calls (calls (In.audio a) ++ [ReqAbort]) a).
    rewrite Hr, <- app_assoc. reflexivity. }
  assert (HO : forall evs a,
             exists l,
               calls (Out.audio (Out.run evs a)) = calls (Out.audio a) ++ l
               /\ Out.run evs (Out.abort a)
                  = Out.with_calls (calls (Out.audio a) ++ ReqAbort :: l)
                                   (Out.run evs a)).
  { intros evs a. destruct (out_run_log evs a) as (l & Hl & Hr).
    exists l. split; [exact Hl|].
    change (Out.abort a)
      with (Out.with_calls (calls (Out.audio a) ++ [ReqAbort]) a).
    rewrite Hr, <- app_assoc. reflexivity. }
  split; [reflexivity|]. split; [reflexivity|].
  split; [exact HI|]. split; [exact HO|]. split.
  - intros evs a. destruct (HI evs a) as (l & _ & ->). split; reflexivity.
  - intros evs a. split.
    + rewrite !OutputFacts.written_run. simpl.
      rewrite written_app, app_nil_r. reflexivity.
    + destruct (HO evs a) as (l & _ & ->). reflexivity.
Qed.

(** *** Construction *)

(** C9: an options object whose sampleFormat is none of 8, 16, 24 and 32,
    or whose deviceId is neither -1 nor an enumerated device, makes the
    constructors of both classes throw what the binding throws; and for
    every options object a constructor either returns the object in its
    initial state, on a fresh handle, or throws: no object is left half
    made. *)
Theorem construction_is_all_or_nothing (devices : list Z) (o : AudioOptions) :
  (((exists w, sampleFormat o = Some w
               /\ w <> 8 /\ w <> 16 /\ w <> 24 /\ w <> 32)%Z
    \/ (exists d, deviceId o = Some d /\ d <> (-1)%Z /\ ~ In d devices)) ->
   In.constructor devices o = Js.Throw config_error
   /\ Out.constructor devices o = Js.Throw config_error)
  /\ ((In.constructor devices o = Js.Normal In.initial
       /\ Out.constructor devices o = Js.Normal Out.initial
       /\ In.audio In.initial = fresh
       /\ Out.audio Out.initial = fresh)
      \/ (In.constructor devices o = Js.Throw config_error
          /\ Out.constructor devices o = Js.Throw config_error)).
Proof.
  unfold In.constructor, Out.constructor, open.
  split.
  - intros H.
    assert (E : valid_options devices o = false).
    { unfold valid_options. destruct H as [(w & Hw & H8 & H16 & H24 & H32)
                                          |(d & Hd & Hm & Hn)].
      - rewrite Hw. simpl. unfold SampleFormat8Bit, SampleFormat16Bit,
          SampleFormat24Bit, SampleFormat32Bit.
        destruct (Z.eqb_spec w 8); [contradiction|].
        destruct (Z.eqb_spec w 16); [contradiction|].
        destruct (Z.eqb_spec w 24); [contradiction|].
        destruct (Z.eqb_spec w 32); [contradiction|].
        reflexivity.
      - rewrite Hd. simpl.
        destruct (Z.eqb_spec d (-1)); [contradiction|]. simpl.
        assert (Hx : existsb (Z.eqb d) devices = false).
        { destruct (existsb (Z.eqb d) devices) eqn:X; [|reflexivity].
          apply existsb_exists in X. destruct X as (x & Hx & Hdx).
          apply Z.eqb_eq in Hdx. subst x. contradiction. }
        rewrite Hx. apply andb_false_r. }
    rewrite E. split; reflexivity.
  - destruct (valid_options devices o).
    + left. repeat split.
    + right. split; reflexivity.
Qed.

Lemma construction_is_all_or_nothing_witness :
  let o := mk_options (Some 0%Z) (Some 44100%Z) (Some 2%Z) (Some 12%Z) in
  ((exists w, sampleFormat o = Some w
              /\ w <> 8 /\ w <> 16 /\ w <> 24 /\ w <> 32)%Z
   \/ (exists d, deviceId o = Some d /\ d <> (-1)%Z /\ ~ In d [0%Z; 1%Z]))
  /\ In.constructor [0%Z; 1%Z] o = Js.Throw config_error
  /\ Out.constructor [0%Z; 1%Z] o = Js.Throw config_error.
Proof.
  assert (H : (exists w, sampleFormat (mk_options (Some 0%Z) (Some 44100%Z)
                                                  (Some 2%Z) (Some 12%Z))
                         = Some w
                         /\ w <> 8 /\ w <> 16 /\ w <> 24 /\ w <> 32)%Z
              \/ (exists d, deviceId (mk_options (Some 0%Z) (Some 44100%Z)
                                                 (Some 2%Z) (Some 12%Z))
                            = Some d /\ d <> (-1)%Z /\ ~ In d [0%Z; 1%Z])).
  { left. exists 12%Z. simpl. repeat split; lia. }
  split; [exact H|].
  exact (proj1 (construction_is_all_or_nothing
                  [0%Z; 1%Z]
                  (mk_options (Some 0%Z) (Some 44100%Z) (Some 2%Z) (Some 12%Z)))
               H).
Defined.

End Lifecycle.

(** ** What reaches the binding, and what [start] and [abort] change *)

Module Forwarding.

Import NodePA HandleFacts.

Module In := AudioInput.
Module Out := AudioOutput.

Lemma in_requests_of_cons e evs :
  In.requests_of (e :: evs) = In.requests_of [e] ++ In.requests_of evs.
Proof. destruct e as [[s|]| | |cb|id err buf]; reflexivity. Qed.

Lemma in_step_calls a e :
  calls (In.audio (In.step a e)) = calls (In.audio a) ++ In.requests_of [e].
Proof.
  destruct e as [[s|]| | |cb|id err buf]; try reflexivity.
  simpl. rewrite app_nil_r. apply InputFacts.on_complete_quiet.
Qed.

(** X1: the calls an [AudioInput] makes on the binding are those of its
    method calls, one each and in call order: [_read] a read of the size it
    was given, [start], [abort] and [quit] their namesake.  The closures the
    binding runs on completion make no call on it. *)
Theorem in_calls_follow_methods (evs : list In.event) :
  forall a,
    calls (In.audio (In.run evs a))
    = calls (In.audio a) ++ In.requests_of evs.
Proof.
  induction evs as [|e evs IH]; intros a.
  - simpl. rewrite app_nil_r. reflexivity.
  - rewrite InputFacts.in_run_cons, IH, in_step_calls,
      (in_requests_of_cons e evs), app_assoc.
    reflexivity.
Qed.

Lemma out_requests_of_cons e evs :
  Out.requests_of (e :: evs) = Out.requests_of [e] ++ Out.requests_of evs.
Proof. destruct e; reflexivity. Qed.

Lemma out_step_calls a e :
  Out.on_finish a = [Out.BoundQuit] ->
  calls (Out.audio (Out.step a e)) = calls (Out.audio a) ++ Out.requests_of [e].
Proof.
  intros Hl. destruct e as [ch enc cb| | |cb| |id]; try reflexivity.
  - simpl. unfold Out.emit_finish. rewrite Hl. reflexivity.
  - simpl. rewrite app_nil_r. apply OutputFacts.on_complete_calls.
Qed.

Lemma out_calls_run (evs : list Out.event) :
  forall a,
    Out.on_finish a = [Out.BoundQuit] ->
    calls (Out.audio (Out.run evs a))
    = calls (Out.audio a) ++ Out.requests_of evs.
Proof.
  induction evs as [|e evs IH]; intros a Hl.
  - simpl. rewrite app_nil_r. reflexivity.
  - rewrite OutputFacts.out_run_cons, IH.
    + rewrite (out_step_calls a e Hl), (out_requests_of_cons e evs), app_assoc.
      reflexivity.
    + rewrite OutputFacts.on_finish_step. exact Hl.
Qed.

(** X2: the calls a constructed [AudioOutput] makes on the binding are
    those of its method calls, one each and in call order, and one [quit]
    for every "finish" the stream emits; completions make none.  No call is
    held back, dropped or repeated, whatever was called before: there is no
    guard on [quit] or [abort] having been called. *)
Theorem out_calls_follow_methods devices options a0 (evs : list Out.event) :
  Out.constructor devices options = Js.Normal a0 ->
  calls (Out.audio (Out.run evs a0)) = Out.requests_of evs.
Proof.
  unfold Out.constructor. destruct (open devices options) as [h|e] eqn:O;
    [|discriminate].
  intros H. injection H as H.
  unfold open in O. destruct (valid_options devices options); [|discriminate].
  injection O as O.
  rewrite out_calls_run; [|rewrite <- H; reflexivity].
  rewrite <- H, <- O. reflexivity.
Qed.

Lemma out_calls_follow_methods_witness :
  Out.constructor [] (mk_options None None None None) = Js.Normal Out.initial
  /\ calls (Out.audio
              (Out.run [Out.EvWrite [x01] Js.Undefined Js.Undefined;
                        Out.EvAbort; Out.EvFinish; Out.EvComplete 0;
                        Out.EvWrite [x02] Js.Undefined Js.Undefined]
                       Out.initial))
     = [ReqWrite [x01]; ReqAbort; ReqQuit; ReqWrite [x02]].
Proof.
  split; [reflexivity|].
  exact (out_calls_follow_methods
           [] (mk_options None None None None) Out.initial
           [Out.EvWrite [x01] Js.Undefined Js.Undefined;
            Out.EvAbort; Out.EvFinish; Out.EvComplete 0;
            Out.EvWrite [x02] Js.Undefined Js.Undefined]
           eq_refl).
Defined.

(** *** Runs without [start] and [abort] *)

Lemma in_with_calls_twice cs cs' a :
  In.with_calls cs (In.with_calls cs' a) = In.with_calls cs a.
Proof. reflexivity. Qed.

Lemma out_with_calls_twice cs cs' a :
  Out.with_calls cs (Out.with_calls cs' a) = Out.with_calls cs a.
Proof. reflexivity. Qed.

Lemma in_drop_lifecycle (evs : list In.event) :
  forall a,
    In.run (In.data_events evs) a
    = In.with_calls (calls (In.audio a) ++ In.requests_of (In.data_events evs))
                    (In.run evs a).
Proof.
  induction evs as [|e evs IH]; intros a.
  - simpl. rewrite app_nil_r. destruct a as [hw om [cs out n] q er iv fs].
    reflexivity.
  - destruct (In.is_lifecycle e) eqn:L.
    + assert (E : In.data_events (e :: evs) = In.data_events evs)
        by (unfold In.data_events; simpl; rewrite L; reflexivity).
      rewrite E, IH, InputFacts.in_run_cons.
      assert (S : exists r, In.step a e
                            = In.with_calls (calls (In.audio a) ++ [r]) a).
      { destruct e; try discriminate; eexists; reflexivity. }
      destruct S as [r ->].
      destruct (Lifecycle.in_run_log evs a) as (l & _ & Hr).
      rewrite Hr, in_with_calls_twice. reflexivity.
    + assert (E : In.data_events (e :: evs) = e :: In.data_events evs)
        by (unfold In.data_events; simpl; rewrite L; reflexivity).
      rewrite E, !InputFacts.in_run_cons, IH, in_step_calls,
        (in_requests_of_cons e (In.data_events evs)), app_assoc.
      reflexivity.
Qed.

Lemma out_drop_lifecycle (evs : list Out.event) :
  forall a,
    Out.on_finish a = [Out.BoundQuit] ->
    Out.run (Out.data_events evs) a
    = Out.with_calls
        (calls (Out.audio a) ++ Out.requests_of (Out.data_events evs))
        (Out.run evs a).
Proof.
  induction evs as [|e evs IH]; intros a Hl.
  - simpl. rewrite app_nil_r.
    destruct a as [ds hw om [cs out n] ls iv fs]. reflexivity.
  - destruct (Out.is_lifecycle e) eqn:L.
    + assert (E : Out.data_events (e :: evs) = Out.data_events evs)
        by (unfold Out.data_events; simpl; rewrite L; reflexivity).
      rewrite E, (IH a Hl), OutputFacts.out_run_cons.
      assert (S : exists r, Out.step a e
                            = Out.with_calls (calls (Out.audio a) ++ [r]) a).
      { destruct e; try discriminate; eexists; reflexivity. }
      destruct S as [r ->].
      destruct (Lifecycle.out_run_log evs a) as (l & _ & Hr).
      rewrite Hr, out_with_calls_twice. reflexivity.
    + assert (E : Out.data_events (e :: evs) = e :: Out.data_events evs)
        by (unfold Out.data_events; simpl; rewrite L; reflexivity).
      assert (Hl' : Out.on_finish (Out.step a e) = [Out.BoundQuit])
        by (rewrite OutputFacts.on_finish_step; exact Hl).
      rewrite E, !OutputFacts.out_run_cons, (IH _ Hl'),
        (out_step_calls a e Hl),
        (out_requests_of_cons e (Out.data_events evs)), app_assoc.
      reflexivity.
Qed.

(** X3: neither class keeps a state of being started or stopped.  A run
    and the same run with all its [start()] and [abort()] calls left out
    end in the same object but for the binding's record of the calls it
    received: the same delivery queue, the same outstanding operations with
    the same closures, the same callbacks run.  In particular [_read] and
    [write] are forwarded before [start()] and after [abort()] as at any
    other time. *)
Theorem start_and_abort_only_forward :
  (forall evs a,
      In.run (In.data_events evs) a
      = In.with_calls
          (calls (In.audio a) ++ In.requests_of (In.data_events evs))
          (In.run evs a))
  /\ (forall evs a,
         In.queue (In.run (In.data_events evs) a) = In.queue (In.run evs a)
         /\ outstanding (In.audio (In.run (In.data_events evs) a))
            = outstanding (In.audio (In.run evs a))
         /\ In.invoked (In.run (In.data_events evs) a)
            = In.invoked (In.run evs a))
  /\ (forall evs0 evs,
         let a := Out.run evs0 Out.initial in
         Out.run (Out.data_events evs) a
         = Out.with_calls
             (calls (Out.audio a) ++ Out.requests_of (Out.data_events evs))
             (Out.run evs a))
  /\ (forall evs0 evs,
         let a := Out.run evs0 Out.initial in
         written (calls (Out.audio (Out.run (Out.data_events evs) a)))
         = written (calls (Out.audio (Out.run evs a)))
         /\ outstanding (Out.audio (Out.run (Out.data_events evs) a))
            = outstanding (Out.audio (Out.run evs a))
         /\ Out.invoked (Out.run (Out.data_events evs) a)
            = Out.invoked (Out.run evs a)).
Proof.
  assert (HO : forall evs0, Out.on_finish (Out.run evs0 Out.initial)
                            = [Out.BoundQuit])
    by (intros evs0; rewrite OutputFacts.on_finish_run; reflexivity).
  split; [exact in_drop_lifecycle|]. split; [|split].
  - intros evs a. rewrite in_drop_lifecycle. repeat split.
  - intros evs0 evs a. apply out_drop_lifecycle, HO.
  - intros evs0 evs a. split; [|rewrite (out_drop_lifecycle evs a (HO evs0));
                                 split; reflexivity].
    rewrite !OutputFacts.written_run. f_equal.
    clear. induction evs as [|e evs IH]; [reflexivity|].
    destruct e; simpl; rewrite ?IH; reflexivity.
Qed.

End Forwarding.

(** ** What an [AudioInput] delivers *)

Module Delivery.

Import NodePA HandleFacts AudioInput InputFacts.

(** Taking an operation out removes exactly that operation from any count
    over the outstanding ones. *)
Lemma take_count {K : Type} (p : op K -> bool) id (l : list (op K)) o r :
  take id l = Some (o, r) ->
  List.length (filter p l)
  = (if p o then 1 else 0) + List.length (filter p r).
Proof.
  revert o r. induction l as [|x l IH]; simpl; intros o r H; [discriminate|].
  destruct (op_id x =? id).
  - injection H as Ho Hr. subst x r. destruct (p o); reflexivity.
  - destruct (take id l) as [[o' r']|]; [|discriminate].
    injection H as Ho Hr. subst o' r. specialize (IH _ _ eq_refl).
    simpl. destruct (p x); simpl; rewrite IH; destruct (p o); lia.
Qed.

Lemma pulled_cons e evs : pulled (e :: evs) = pulled [e] ++ pulled evs.
Proof. destruct e as [[s|]| | |cb|id err buf]; reflexivity. Qed.

Lemma accepted_length om buf : List.length (accepted om buf) <= 1.
Proof. destruct om, buf; simpl; lia. Qed.

Lemma chunk_budget_step a e :
  List.length (queue (step a e)) + reads_pending (step a e)
  <= List.length (queue a) + reads_pending a + List.length (pulled [e])
  /\ exists l, queue (step a e) = queue a ++ l.
Proof.
  destruct e as [size| | |cb|id err buf].
  - split; [|exists []; simpl; rewrite app_nil_r; reflexivity].
    unfold reads_pending; destruct size; simpl;
      rewrite filter_app, length_app; simpl; lia.
  - split; [simpl; unfold reads_pending; simpl; lia|].
    exists []; simpl; rewrite app_nil_r; reflexivity.
  - split; [simpl; unfold reads_pending; simpl; lia|].
    exists []; simpl; rewrite app_nil_r; reflexivity.
  - split; [|exists []; simpl; rewrite app_nil_r; reflexivity].
    unfold reads_pending; simpl. rewrite filter_app, length_app; simpl; lia.
  - simpl. unfold on_complete, complete.
    destruct (take id (outstanding (audio a))) as [[o r]|] eqn:T;
      [|split; [lia | exists []; rewrite app_nil_r; reflexivity]].
    pose proof (take_count (fun o => is_read_handler (op_cb o)) _ _ _ _ T) as Hc.
    unfold reads_pending, run_callback. simpl in *.
    destruct (op_cb o) as [|cb]; simpl in Hc.
    + destruct (negb (Js.truthy err)); simpl.
      * pose proof (accepted_length (objectMode a) buf) as Hle.
        split; [rewrite length_app; lia | eexists; reflexivity].
      * split; [lia | exists []; rewrite app_nil_r; reflexivity].
    + assert (Hq : forall x, queue (invoke cb id x) = queue x
                             /\ audio (invoke cb id x) = audio x)
        by (intros x; destruct cb; split; reflexivity).
      destruct (Js.truthy cb && Js.is_function cb); simpl.
      * destruct (Hq (set_audio
                        (mk_handle (calls (audio a)) r (next_id (audio a))) a))
          as [-> ->].
        simpl. split; [lia | exists []; rewrite app_nil_r; reflexivity].
      * split; [lia | exists []; rewrite app_nil_r; reflexivity].
Qed.

(** X4: with a binding that notifies each read once, as the spec
    describes it, an [AudioInput] delivers at most one chunk per [_read]
    call and never takes a chunk back.  In every run the chunks in the
    delivery queue and the reads still outstanding together number at most
    the [_read] calls made, and the queue at any earlier moment is a prefix
    of the queue later.  The handler itself pushes at most one chunk each
    time it is run. *)
Theorem at_most_one_chunk_per_pull (evs : list event) :
  (forall a,
      (List.length (queue (run evs a)) + reads_pending (run evs a)
       <= List.length (queue a) + reads_pending a + List.length (pulled evs))
      /\ (exists l, queue (run evs a) = queue a ++ l))
  /\ List.length (queue (run evs initial)) <= List.length (pulled evs).
Proof.
  assert (H : forall a,
             (List.length (queue (run evs a)) + reads_pending (run evs a)
              <= List.length (queue a) + reads_pending a
                 + List.length (pulled evs))
             /\ (exists l, queue (run evs a) = queue a ++ l)).
  { induction evs as [|e evs IH]; intros a.
    - split; [simpl; lia | exists []; simpl; rewrite app_nil_r; reflexivity].
    - rewrite in_run_cons, (pulled_cons e evs), length_app.
      destruct (IH (step a e)) as (Hn & l & Hl).
      destruct (chunk_budget_step a e) as (Hn' & l' & Hl').
      split; [lia|]. exists (l' ++ l). rewrite Hl, Hl', app_assoc. reflexivity. }
  split; [exact H|].
  destruct (H initial) as [Hn _].
  assert (H0 : reads_pending initial = 0) by reflexivity.
  assert (H1 : List.length (queue initial) = 0) by reflexivity.
  lia.
Qed.

(** *** Reads in flight *)

Lemma pulls_in_flight k0 (sizes : list (option Z)) :
  forall a,
    wf a ->
    k0 <= next_id (audio a) ->
    Forall (fun o => k0 <= op_id o -> op_cb o = ReadHandler)
           (outstanding (audio a)) ->
    (forall id, k0 <= id < next_id (audio a) ->
                occ id (outstanding (audio a)) = 1) ->
    let a' := run (map EvRead sizes) a in
    queue a' = queue a
    /\ Forall (fun o => k0 <= op_id o -> op_cb o = ReadHandler)
              (outstanding (audio a'))
    /\ (forall id, k0 <= id < next_id (audio a) + List.length sizes ->
                   occ id (outstanding (audio a')) = 1).
Proof.
  induction sizes as [|s sizes IH]; intros a Hwf Hk Hcb Hocc.
  - simpl. split; [reflexivity|]. split; [exact Hcb|].
    intros id Hid. apply Hocc. lia.
  - simpl map. cbv zeta. rewrite in_run_cons.
    assert (Hwf' : wf (step a (EvRead s))) by (apply in_wf_step, Hwf).
    destruct (IH (step a (EvRead s)) Hwf') as (Hq & Hc & Ho).
    + simpl. lia.
    + simpl. apply Forall_app; split; [exact Hcb|].
      constructor; [reflexivity | constructor].
    + intros id Hid. simpl in Hid |- *. rewrite occ_app.
      destruct (Nat.eq_dec id (next_id (audio a))) as [->|Hne].
      * rewrite (occ_fresh _ _ _ (proj1 Hwf) (le_n _)).
        unfold occ; simpl. rewrite Nat.eqb_refl. reflexivity.
      * rewrite Hocc by lia. unfold occ; simpl.
        destruct (Nat.eqb_spec (next_id (audio a)) id); [lia | reflexivity].
    + split; [rewrite Hq; reflexivity|]. split; [exact Hc|].
      intros id Hid. apply Ho. simpl in *. lia.
Qed.

Lemma completions_deliver k0 (cs : list (nat * Buffer)) :
  forall a,
    Forall (fun o => k0 <= op_id o -> op_cb o = ReadHandler)
           (outstanding (audio a)) ->
    NoDup (map fst cs) ->
    Forall (fun c => k0 <= fst c /\ occ (fst c) (outstanding (audio a)) = 1) cs ->
    queue (run (completions cs) a)
    = queue a ++ flat_map (accepted (objectMode a)) (map snd cs).
Proof.
  induction cs as [|[id buf] cs IH]; intros a Hcb Hnd Hcs.
  - simpl. rewrite app_nil_r. reflexivity.
  - simpl completions. rewrite in_run_cons.
    inversion Hnd as [|? ? Hnotin Hnd']; subst.
    inversion Hcs as [|? ? [Hk Hone] Hcs']; subst. simpl in Hk, Hone.
    destruct (take id (outstanding (audio a))) as [[o r]|] eqn:T;
      [|apply take_None in T; lia].
    assert (Hrh : op_cb o = ReadHandler).
    { rewrite Forall_forall in Hcb. apply (Hcb o (take_In _ _ _ _ T)).
      rewrite (take_id _ _ _ _ T). exact Hk. }
    assert (E : step a (EvComplete id Js.Null buf)
                = push buf (set_audio
                              (mk_handle (calls (audio a)) r (next_id (audio a)))
                              a)).
    { simpl. unfold on_complete, complete. rewrite T.
      unfold run_callback. rewrite Hrh. reflexivity. }
    rewrite E, IH.
    + simpl. rewrite <- app_assoc. reflexivity.
    + simpl. apply (take_Forall _ _ _ _ _ T Hcb).
    + exact Hnd'.
    + simpl. rewrite Forall_forall in Hcs' |- *. intros c Hc.
      destruct (Hcs' c Hc) as [Hkc Hoc]. split; [exact Hkc|].
      pose proof (take_occ _ _ _ _ (fst c) T) as Hto.
      destruct (Nat.eqb_spec (fst c) id) as [Eq|Ne].
      * exfalso. apply Hnotin. rewrite <- Eq. apply in_map, Hc.
      * simpl in Hto. lia.
Qed.

Lemma in_flight_delivery
  (evs0 : list event) (sizes : list (option Z)) (cs : list (nat * Buffer)) :
  let a := run evs0 initial in
  let k := next_id (audio a) in
  NoDup (map fst cs) ->
  Forall (fun c => k <= fst c < k + List.length sizes) cs ->
  queue (run (map EvRead sizes ++ completions cs) a)
  = queue a ++ flat_map (accepted false) (map snd cs).
Proof.
  intros a k Hnd Hcs.
  assert (Hwf : wf a) by (apply in_wf_run, in_wf_initial).
  assert (Hom : objectMode (run (map EvRead sizes) a) = false).
  { unfold a. rewrite !in_object_mode_run. reflexivity. }
  destruct (pulls_in_flight k sizes a Hwf (le_n _)) as (Hq & Hc & Ho).
  - destruct Hwf as [Hb _]. unfold ids_below in Hb.
    eapply Forall_impl; [|exact Hb]. simpl. unfold k. intros o Hlt Hge. lia.
  - intros id Hid. unfold k in Hid. lia.
  - rewrite in_run_app, (completions_deliver k cs _ Hc Hnd).
    + rewrite Hq, Hom. reflexivity.
    + rewrite Forall_forall in Hcs |- *. intros c Hin.
      specialize (Hcs c Hin). split; [lia|]. apply Ho. unfold k in Hcs. lia.
Qed.

(** C7, as stated, fails: with two reads in flight, completed in the
    reverse of the order of issue, the queue holds the buffers in the
    order of completion. *)
Lemma reads_in_flight_deliver_out_of_issue_order :
  queue (run [EvRead None; EvRead None;
              EvComplete 1 Js.Null [x0b]; EvComplete 0 Js.Null [x0a]]
             initial)
  = [[x0b]; [x0a]]
  /\ map snd (by_issue [(1, [x0b]); (0, [x0a])]) = [[x0a]; [x0b]]
  /\ ~ delivers_in_issue_order.
Proof.
  split; [reflexivity|]. split; [reflexivity|].
  intros H.
  specialize (H [None; None] [(1, [x0b]); (0, [x0a])]).
  assert (Hnd : NoDup (map fst [(1, [x0b]); (0, [x0a : byte])])).
  { simpl. constructor; [simpl; intros [E|[]]; discriminate|].
    constructor; [intros [] | constructor]. }
  assert (Hcs : Forall (fun c : nat * Buffer => fst c < 2)
                       [(1, [x0b]); (0, [x0a])]).
  { constructor; [simpl; lia|]. constructor; [simpl; lia | constructor]. }
  specialize (H Hnd Hcs). vm_compute in H. discriminate.
Qed.

(** C7, as the code has it: every [_read] makes exactly one [read] call on
    the binding, for the size it was given, or for 1024 when the size is
    omitted, and delivers nothing by itself; in every run the sizes the
    binding is asked for are those of the [_read] calls, in call order.
    When the binding completes a read without error, the handler passes the
    buffer to [push], which puts it at the end of the delivery queue (a
    byte stream enqueues nothing for a buffer of length zero).  So buffers
    are delivered in the order in which the reads complete: with several
    reads in flight, completed each once in any order, the queue receives
    their buffers in completion order; that is the order of issue when
    pulls are served one at a time, which the class does not enforce. *)
Theorem pull_reads_once_and_delivers :
  (forall a s,
      audio (_read (Some s) a)
      = call_async (ReqRead s) ReadHandler (audio a)
      /\ calls (audio (_read (Some s) a)) = calls (audio a) ++ [ReqRead s]
      /\ queue (_read (Some s) a) = queue a)
  /\ (forall a,
         calls (audio (_read None a)) = calls (audio a) ++ [ReqRead 1024%Z]
         /\ outstanding (audio (_read None a))
            = outstanding (audio a)
              ++ [mk_op (next_id (audio a)) (ReqRead 1024%Z) ReadHandler]
         /\ queue (_read None a) = queue a)
  /\ (forall evs a,
         requested (calls (audio (run evs a)))
         = requested (calls (audio a)) ++ pulled evs)
  /\ (forall a id err buf o h,
         complete id (audio a) = Some (o, h) ->
         op_cb o = ReadHandler ->
         Js.truthy err = false ->
         queue (on_complete id err buf a)
         = queue a ++ accepted (objectMode a) buf
         /\ audio (on_complete id err buf a) = h)
  /\ (forall evs0 sizes cs,
         let a := run evs0 initial in
         let k := next_id (audio a) in
         NoDup (map fst cs) ->
         Forall (fun c => k <= fst c < k + List.length sizes) cs ->
         queue (run (map EvRead sizes ++ completions cs) a)
         = queue a ++ flat_map (accepted false) (map snd cs))
  /\ (forall evs0 ps,
         let a := run evs0 initial in
         queue (run (serial (next_id (audio a)) ps) a)
         = queue a ++ flat_map (accepted false) (map snd ps)
         /\ requested (calls (audio (run (serial (next_id (audio a)) ps) a)))
            = requested (calls (audio a))
              ++ pulled (map (fun p => EvRead (fst p)) ps)).
Proof.
  split; [|split; [|split; [|split; [|split]]]].
  - intros a s. repeat split.
  - intros a. repeat split.
  - exact requested_run.
  - intros a id err buf o h C Hk Herr.
    unfold on_complete. rewrite C. unfold run_callback.
    rewrite Hk, Herr. simpl. split; reflexivity.
  - exact in_flight_delivery.
  - intros evs0 ps a.
    assert (Hwf : wf a) by (apply in_wf_run, in_wf_initial).
    assert (Hom : objectMode a = false)
      by (unfold a; rewrite in_object_mode_run; reflexivity).
    destruct (serial_run ps a Hwf) as [Hq Hc].
    split; [rewrite Hq, Hom; reflexivity|].
    rewrite Hc, requested_app. f_equal.
    clear. induction ps as [|[[s|] b] ps IH]; simpl; [reflexivity| |];
      rewrite IH; reflexivity.
Qed.

Lemma pull_reads_once_and_delivers_witness :
  let a := _read None initial in
  let cs := [(2, [x0c]); (0, []); (1, [x0a])] in
  (complete 0 (audio a)
   = Some (mk_op 0 (ReqRead 1024) ReadHandler,
           mk_handle [ReqRead 1024%Z] [] 1)
   /\ Js.truthy Js.Null = false)
  /\ queue (on_complete 0 Js.Null [x01; x02] a) = [[x01; x02]]
  /\ (NoDup (map fst cs) /\ Forall (fun c => 0 <= fst c < 0 + 3) cs)
  /\ queue (run (map EvRead [None; Some 512%Z; None] ++ completions cs)
                initial)
     = [[x0c]; [x0a]].
Proof.
  assert (Hnd : NoDup (map fst [(2, [x0c]); (0, []); (1, [x0a : byte])])).
  { simpl. constructor; [simpl; intros [E|[E|[]]]; discriminate|].
    constructor; [simpl; intros [E|[]]; discriminate|].
    constructor; [intros [] | constructor]. }
  assert (Hcs : Forall (fun c : nat * Buffer => 0 <= fst c < 0 + 3)
                       [(2, [x0c]); (0, []); (1, [x0a])]).
  { repeat (constructor; [simpl; lia|]). constructor. }
  destruct pull_reads_once_and_delivers as (_ & _ & _ & H4 & H5 & _).
  split; [split; reflexivity|].
  split; [exact (proj1 (H4 (_read None initial) 0 Js.Null [x01; x02] _ _
                           eq_refl eq_refl eq_refl))|].
  split; [split; [exact Hnd | exact Hcs]|].
  exact (H5 [] [None; Some 512%Z; None] [(2, [x0c]); (0, []); (1, [x0a])]
            Hnd Hcs).
Defined.

End Delivery.

(** ** The functions the classes cause to run *)

Module Callbacks.

Import NodePA HandleFacts.

Module In := AudioInput.
Module Out := AudioOutput.

Lemma in_given_cons e evs : In.given (e :: evs) = In.given [e] ++ In.given evs.
Proof.
  destruct e as [[s|]| | |cb|id err buf]; simpl; rewrite ?app_nil_r; reflexivity.
Qed.

Lemma out_given_cons e evs :
  Out.given (e :: evs) = Out.given [e] ++ Out.given evs.
Proof. destruct e; simpl; rewrite ?app_nil_r; reflexivity. Qed.

Lemma incl_weaken {A : Type} (l G X : list A) : incl l G -> incl l (G ++ X).
Proof. intros H x Hx. apply in_or_app. left. apply H, Hx. Qed.

Lemma in_only_given_step G a e :
  Forall (fun x => In (fst x) G) (In.invoked a) ->
  Forall (fun o => incl (In.fns_of (op_cb o)) G) (outstanding (In.audio a)) ->
  Forall (fun x => In (fst x) (G ++ In.given [e])) (In.invoked (In.step a e))
  /\ Forall (fun o => incl (In.fns_of (op_cb o)) (G ++ In.given [e]))
            (outstanding (In.audio (In.step a e))).
Proof.
  intros Hi Ho.
  assert (Hi' : Forall (fun x => In (fst x) (G ++ In.given [e])) (In.invoked a)).
  { eapply Forall_impl; [|exact Hi]. simpl. intros x Hx.
    apply in_or_app. left. exact Hx. }
  assert (Ho' : Forall (fun o => incl (In.fns_of (op_cb o)) (G ++ In.given [e]))
                       (outstanding (In.audio a))).
  { eapply Forall_impl; [|exact Ho]. simpl. intros o. apply incl_weaken. }
  destruct e as [size| | |cb|id err buf]; simpl In.step.
  - split; [exact Hi'|]. simpl. apply Forall_app; split; [exact Ho'|].
    constructor; [intros x [] | constructor].
  - split; assumption.
  - split; assumption.
  - split; [exact Hi'|]. simpl outstanding.
    apply Forall_app; split; [exact Ho'|].
    constructor; [|constructor]. simpl. rewrite app_nil_r.
    intros x Hx. apply in_or_app. right. exact Hx.
  - unfold In.on_complete, complete.
    destruct (take id (outstanding (In.audio a))) as [[o r]|] eqn:T;
      [|split; assumption].
    destruct (InputFacts.in_run_callback_effect id (op_cb o) err buf
                (In.set_audio
                   (mk_handle (calls (In.audio a)) r (next_id (In.audio a))) a))
      as [-> ->].
    simpl. split.
    + apply Forall_app; split; [exact Hi'|].
      apply Forall_forall. intros x Hx. apply in_map_iff in Hx.
      destruct Hx as (f & <- & Hf). simpl.
      rewrite Forall_forall in Ho'. apply (Ho' o (take_In _ _ _ _ T)), Hf.
    + apply (take_Forall _ _ _ _ _ T Ho').
Qed.

Lemma in_only_given_run (evs : list In.event) :
  forall G a,
    Forall (fun x => In (fst x) G) (In.invoked a) ->
    Forall (fun o => incl (In.fns_of (op_cb o)) G) (outstanding (In.audio a)) ->
    Forall (fun x => In (fst x) (G ++ In.given evs)) (In.invoked (In.run evs a)).
Proof.
  induction evs as [|e evs IH]; intros G a Hi Ho.
  - simpl. rewrite app_nil_r. exact Hi.
  - destruct (in_only_given_step G a e Hi Ho) as [Hi' Ho'].
    rewrite InputFacts.in_run_cons, (in_given_cons e evs), app_assoc.
    apply IH; assumption.
Qed.

Lemma out_listeners_given G ls :
  forall a,
    Forall (fun o => incl (Out.fns_of (op_cb o)) G) (outstanding (Out.audio a)) ->
    Forall (fun o => incl (Out.fns_of (op_cb o)) G)
           (outstanding (Out.audio (fold_left Out.run_listener ls a))).
Proof.
  induction ls as [|[] ls IH]; intros a H; simpl; [exact H|].
  apply IH. simpl. apply Forall_app; split; [exact H|].
  constructor; [intros x [] | constructor].
Qed.

Lemma out_only_given_step G a e :
  Forall (fun x => In (fst x) G) (Out.invoked a) ->
  Forall (fun o => incl (Out.fns_of (op_cb o)) G) (outstanding (Out.audio a)) ->
  Forall (fun x => In (fst x) (G ++ Out.given [e])) (Out.invoked (Out.step a e))
  /\ Forall (fun o => incl (Out.fns_of (op_cb o)) (G ++ Out.given [e]))
            (outstanding (Out.audio (Out.step a e))).
Proof.
  intros Hi Ho.
  assert (Hi' : Forall (fun x => In (fst x) (G ++ Out.given [e]))
                       (Out.invoked a)).
  { eapply Forall_impl; [|exact Hi]. simpl. intros x Hx.
    apply in_or_app. left. exact Hx. }
  assert (Ho' : Forall (fun o => incl (Out.fns_of (op_cb o))
                                      (G ++ Out.given [e]))
                       (outstanding (Out.audio a))).
  { eapply Forall_impl; [|exact Ho]. simpl. intros o. apply incl_weaken. }
  destruct e as [ch enc cb| | |cb| |id]; simpl Out.step.
  - split; [exact Hi'|]. simpl outstanding.
    apply Forall_app; split; [exact Ho'|].
    constructor; [|constructor]. simpl. rewrite app_nil_r.
    intros x Hx. apply in_or_app. right. exact Hx.
  - split; assumption.
  - split; assumption.
  - split; [exact Hi'|]. simpl outstanding.
    apply Forall_app; split; [exact Ho'|].
    constructor; [|constructor]. simpl. rewrite app_nil_r.
    intros x Hx. apply in_or_app. right. exact Hx.
  - unfold Out.emit_finish. split.
    + destruct (OutputFacts.listeners_effect (Out.on_finish a) a)
        as (_ & _ & ->).
      exact Hi'.
    + apply out_listeners_given, Ho'.
  - unfold Out.on_complete, complete.
    destruct (take id (outstanding (Out.audio a))) as [[o r]|] eqn:T;
      [|split; assumption].
    destruct (OutputFacts.run_callback_effect id (op_cb o)
                (Out.set_audio
                   (mk_handle (calls (Out.audio a)) r (next_id (Out.audio a)))
                   a))
      as (-> & _ & ->).
    simpl. split.
    + apply Forall_app; split; [exact Hi'|].
      apply Forall_forall. intros x Hx. apply in_map_iff in Hx.
      destruct Hx as (f & <- & Hf). simpl.
      rewrite Forall_forall in Ho'. apply (Ho' o (take_In _ _ _ _ T)), Hf.
    + apply (take_Forall _ _ _ _ _ T Ho').
Qed.

Lemma out_only_given_run (evs : list Out.event) :
  forall G a,
    Forall (fun x => In (fst x) G) (Out.invoked a) ->
    Forall (fun o => incl (Out.fns_of (op_cb o)) G)
           (outstanding (Out.audio a)) ->
    Forall (fun x => In (fst x) (G ++ Out.given evs))
           (Out.invoked (Out.run evs a)).
Proof.
  induction evs as [|e evs IH]; intros G a Hi Ho.
  - simpl. rewrite app_nil_r. exact Hi.
  - destruct (out_only_given_step G a e Hi Ho) as [Hi' Ho'].
    rewrite OutputFacts.out_run_cons, (out_given_cons e evs), app_assoc.
    apply IH; assumption.
Qed.

(** X6: the classes run no function of their own accord.  In every run of
    a constructed object, each function that is run was handed to the
    object before: on an [AudioInput] as the callback of a [quit] call, on
    an [AudioOutput] as the callback of a [write] or [quit] call, or it is
    the no-op arrow that [write] made for an omitted callback.  A run in
    which no function is handed over runs none. *)
Theorem only_given_functions_run :
  (forall evs,
      Forall (fun x => In (fst x) (In.given evs))
             (In.invoked (In.run evs In.initial)))
  /\ (forall evs,
         Forall (fun x => In (fst x) (Out.given evs))
                (Out.invoked (Out.run evs Out.initial)))
  /\ (forall evs, In.given evs = [] -> In.invoked (In.run evs In.initial) = []).
Proof.
  assert (HI : forall evs,
             Forall (fun x => In (fst x) (In.given evs))
                    (In.invoked (In.run evs In.initial))).
  { intros evs.
    apply (in_only_given_run evs [] In.initial); constructor. }
  split; [exact HI|]. split.
  - intros evs.
    apply (out_only_given_run evs [] Out.initial); constructor.
  - intros evs Hg. specialize (HI evs). rewrite Hg in HI.
    destruct (In.invoked (In.run evs In.initial)) as [|x l]; [reflexivity|].
    inversion HI as [|? ? Hx _]. destruct Hx.
Qed.

Lemma only_given_functions_run_witness :
  let evs := [In.EvRead None; In.EvQuit Js.Undefined; In.EvQuit (Js.Number 3);
              In.EvComplete 1 Js.Null []; In.EvComplete 2 Js.Null []] in
  In.given evs = [] /\ In.invoked (In.run evs In.initial) = [].
Proof.
  split; [reflexivity|].
  exact (proj2 (proj2 only_given_functions_run)
               [In.EvRead None; In.EvQuit Js.Undefined; In.EvQuit (Js.Number 3);
                In.EvComplete 1 Js.Null []; In.EvComplete 2 Js.Null []]
               eq_refl).
Defined.

(** *** Completion values that are not callable *)

Lemma out_callable_runs id k a :
  Out.callable k = true ->
  Out.faults (Out.run_callback id k a) = Out.faults a.
Proof.
  destruct k as [cb|cb]; intros H.
  - destruct cb; try discriminate. reflexivity.
  - apply Lifecycle.out_quit_handler_faults.
Qed.

Lemma out_listeners_callable ls :
  forall a,
    Forall (fun o => Out.callable (op_cb o) = true) (outstanding (Out.audio a)) ->
    Out.faults (fold_left Out.run_listener ls a) = Out.faults a
    /\ Forall (fun o => Out.callable (op_cb o) = true)
              (outstanding (Out.audio (fold_left Out.run_listener ls a))).
Proof.
  induction ls as [|[] ls IH]; intros a H; simpl; [split; [reflexivity | exact H]|].
  destruct (IH (Out.quit Js.Undefined a)) as [-> Hc].
  - simpl. apply Forall_app; split; [exact H|].
    constructor; [reflexivity | constructor].
  - split; [reflexivity | exact Hc].
Qed.

Lemma typed_step a e :
  Out.typed e = true ->
  Forall (fun o => Out.callable (op_cb o) = true) (outstanding (Out.audio a)) ->
  Out.faults (Out.step a e) = Out.faults a
  /\ Forall (fun o => Out.callable (op_cb o) = true)
            (outstanding (Out.audio (Out.step a e))).
Proof.
  intros Ht Hc. destruct e as [ch enc cb| | |cb| |id]; simpl Out.step.
  - split; [reflexivity|]. simpl outstanding.
    apply Forall_app; split; [exact Hc|].
    constructor; [|constructor]. simpl.
    destruct cb; simpl in Ht |- *; try discriminate; reflexivity.
  - split; [reflexivity | exact Hc].
  - split; [reflexivity | exact Hc].
  - split; [reflexivity|]. simpl outstanding.
    apply Forall_app; split; [exact Hc|].
    constructor; [reflexivity | constructor].
  - apply out_listeners_callable, Hc.
  - unfold Out.on_complete, complete.
    destruct (take id (outstanding (Out.audio a))) as [[o r]|] eqn:T;
      [|split; [reflexivity | exact Hc]].
    assert (Ho : Out.callable (op_cb o) = true).
    { rewrite Forall_forall in Hc. apply (Hc o (take_In _ _ _ _ T)). }
    split.
    + rewrite (out_callable_runs _ _ _ Ho). reflexivity.
    + rewrite (proj1 (OutputFacts.run_callback_effect _ _ _)). simpl.
      apply (take_Forall _ _ _ _ _ T Hc).
Qed.

(** X7: an [AudioOutput] used as its types declare never hands the
    binding something it cannot call.  In a run in which every [write] has
    its [cb] omitted or a function, every completion value outstanding at
    the binding is callable and no completion fails, whatever is passed to
    [quit].  The default of [cb] stands in for an omitted [cb] only: a
    [cb] of [null] is handed over as it is, and completing that write finds
    nothing to call. *)
Theorem typed_writes_never_fault :
  (forall evs,
      forallb Out.typed evs = true ->
      Out.faults (Out.run evs Out.initial) = []
      /\ Forall (fun o => Out.callable (op_cb o) = true)
                (outstanding (Out.audio (Out.run evs Out.initial))))
  /\ (forall evs0 chunk encoding,
         let a := Out.run evs0 Out.initial in
         let k := next_id (Out.audio a) in
         Out.audio (snd (Out.write chunk encoding Js.Null a))
         = call_async (ReqWrite chunk) (Out.Passed Js.Null) (Out.audio a)
         /\ Out.faults (Out.on_complete k (snd (Out.write chunk encoding Js.Null a)))
            = Out.faults a ++ [k]).
Proof.
  split.
  - assert (H : forall evs a,
               forallb Out.typed evs = true ->
               Forall (fun o => Out.callable (op_cb o) = true)
                      (outstanding (Out.audio a)) ->
               Out.faults (Out.run evs a) = Out.faults a
               /\ Forall (fun o => Out.callable (op_cb o) = true)
                         (outstanding (Out.audio (Out.run evs a)))).
    { induction evs as [|e evs IH]; intros a Ht Hc; [split; [reflexivity | exact Hc]|].
      simpl in Ht. apply andb_prop in Ht. destruct Ht as [He Hevs].
      destruct (typed_step a e He Hc) as [Hf Hc'].
      rewrite OutputFacts.out_run_cons.
      destruct (IH _ Hevs Hc') as [-> Hc'']. split; [exact Hf | exact Hc'']. }
    intros evs Ht. apply (H evs Out.initial Ht). constructor.
  - intros evs0 chunk encoding a k. split; [reflexivity|].
    assert (Hwf : Out.wf a)
      by (apply OutputFacts.out_wf_run, OutputFacts.out_wf_initial).
    unfold Out.on_complete, Out.write. simpl snd. simpl Out.audio.
    rewrite (complete_last _ _ _ (proj1 Hwf)). reflexivity.
Qed.

Lemma typed_writes_never_fault_witness :
  let evs := [Out.EvWrite [x01] Js.Undefined Js.Undefined;
              Out.EvWrite [x02] (Js.Str "binary") (Js.Function (Js.UserFn 4));
              Out.EvQuit (Js.Number 7); Out.EvComplete 1; Out.EvComplete 2;
              Out.EvComplete 0] in
  forallb Out.typed evs = true
  /\ Out.faults (Out.run evs Out.initial) = [].
Proof.
  split; [reflexivity|].
  exact (proj1 (proj1 typed_writes_never_fault
                      [Out.EvWrite [x01] Js.Undefined Js.Undefined;
                       Out.EvWrite [x02] (Js.Str "binary")
                                   (Js.Function (Js.UserFn 4));
                       Out.EvQuit (Js.Number 7); Out.EvComplete 1;
                       Out.EvComplete 2; Out.EvComplete 0]
                      eq_refl)).
Defined.

End Callbacks.

